(** * Game of Life on WebGPU: the simulation shader and its host loop

    A shallow embedding of [src/gameoflife.js]: the WGSL compute kernel
    ([cellIndex], [cellActive], [computeMain]) over unsigned 32-bit
    arithmetic, the dispatch of its invocations in an arbitrary order, the
    host side ([cellStateStorage], [bindGroups], [updateGrid]) as a state
    machine over the device's buffers, and the cell shader ([vertexMain],
    [fragmentMain]) in 32-bit float arithmetic. *)

From Stdlib Require Import ZArith QArith Qround Lia.
From stdpp Require Import base option list.

Local Open Scope Z_scope.

(** ** Unsigned 32-bit integers (WGSL [u32]) *)

Module U32.

Definition modulus : Z := 4294967296.

Definition wrap (n : Z) : Z := n mod modulus.

(** [+], [-] and [*] on [u32] wrap around. *)
Definition add (a b : Z) : Z := wrap (a + b).
Definition sub (a b : Z) : Z := wrap (a - b).
Definition mul (a b : Z) : Z := wrap (a * b).

(** [%] on [u32]; at run time a zero divisor yields 0. *)
Definition rem (a b : Z) : Z := if b =? 0 then 0 else a mod b.

(** The conversion [u32(f)] of a float: truncation towards zero, clamped
    to the range of [u32]. Floats are the rationals they denote. *)
Definition of_f32 (f : Q) : Z :=
  Z.max 0 (Z.min (Qnum f ÷ Zpos (Qden f)) (modulus - 1)).

End U32.

(** ** 32-bit floats (WGSL [f32], [Float32Array])

    A float is the rational it denotes. [round] maps a rational to the
    nearest float with a significand of 24 bits, ties to the even
    significand, as IEEE 754 binary32 does; results below the normal range
    are rounded to a multiple of 2^-149. Infinities and NaN are not
    represented: the model is that of the floats within range, and a
    division by zero is outside it. Every operation is taken as correctly
    rounded; WGSL allows an implementation an error of a few units in the
    last place for a division. *)

Module F32.

Definition pow2 (k : Z) : Q :=
  if 0 <=? k then inject_Z (2 ^ k) else 1 # Z.to_pos (2 ^ (- k)).

(** The [k] with [2^k <= n / d < 2^(k+1)], for positive [n] and [d]. *)
Definition exponent (n d : Z) : Z :=
  let k := Z.log2 n - Z.log2 d in
  if (if 0 <=? k then n <? d * 2 ^ k else n * 2 ^ (- k) <? d)
  then k - 1 else k.

(** The integer nearest to [n / d], the even one of two at equal distance. *)
Definition nearestEven (n d : Z) : Z :=
  let fl := n / d in
  let r := n mod d in
  if 2 * r <? d then fl
  else if d <? 2 * r then fl + 1
  else if Z.even fl then fl else fl + 1.

Definition round (q : Q) : Q :=
  let n := Z.abs (Qnum q) in
  let d := Zpos (Qden q) in
  if n =? 0 then 0%Q
  else
    let e := Z.max (exponent n d - 23) (-149) in
    let m := if 0 <=? e then nearestEven n (d * 2 ^ e)
             else nearestEven (n * 2 ^ (- e)) d in
    (inject_Z (Z.sgn (Qnum q) * m) * pow2 e)%Q.

(** The arithmetic operations round their exact result. *)
Definition add (a b : Q) : Q := round (a + b).
Definition sub (a b : Q) : Q := round (a - b).
Definition mul (a b : Q) : Q := round (a * b).
Definition div (a b : Q) : Q := round (a / b).

(** [floor] and [trunc] are exact. *)
Definition floor (q : Q) : Q := inject_Z (Qfloor q).
Definition trunc (q : Q) : Q := inject_Z (Qnum q ÷ Zpos (Qden q)).

(** [a % b] on floats is [a - b * trunc(a / b)]. *)
Definition rem (a b : Q) : Q := sub a (mul b (trunc (div a b))).

(** The conversion [f32(n)] of an unsigned integer. *)
Definition of_u32 (n : Z) : Q := round (inject_Z n).

End F32.

(** ** Vectors *)

Record vec2f := Vec2f { fx : Q; fy : Q }.
Record vec2u := vec2 { x : Z; y : Z }.
(** [global_invocation_id] is a [vec3u]; the kernel uses its [xy] swizzle. *)
Record vec3u := Vec3u { xy : vec2u; z : Z }.

(** ** Storage buffers ([array<u32>])

    An access outside the array is reported as [None]. *)

Definition load (buf : list Z) (i : Z) : option Z := buf !! Z.to_nat i.

Definition store (buf : list Z) (i : Z) (v : Z) : option (list Z) :=
  if decide (Z.to_nat i < length buf)%nat
  then Some (<[Z.to_nat i := v]> buf)
  else None.

(** ** The simulation shader *)

Section Shader.

(** [@binding(0) grid] and [@binding(1) cellStateIn]. *)
Variable grid : vec2f.
Variable cellStateIn : list Z.

Definition cellIndex (cell : vec2u) : Z :=
  U32.add
    (U32.mul (U32.rem (y cell) (U32.of_f32 (fy grid))) (U32.of_f32 (fx grid)))
    (U32.rem (x cell) (U32.of_f32 (fx grid))).

Definition cellActive (x y : Z) : option Z :=
  load cellStateIn (cellIndex (vec2 x y)).

(** The eight lookups of [computeMain], in the order of the source. *)
Definition activeNeighbors (cell : vec3u) : option Z :=
  let cx := x (xy cell) in
  let cy := y (xy cell) in
  n1 ← cellActive (U32.add cx 1) (U32.add cy 1);
  n2 ← cellActive (U32.add cx 1) cy;
  n3 ← cellActive (U32.add cx 1) (U32.sub cy 1);
  n4 ← cellActive cx (U32.sub cy 1);
  n5 ← cellActive (U32.sub cx 1) (U32.sub cy 1);
  n6 ← cellActive (U32.sub cx 1) cy;
  n7 ← cellActive (U32.sub cx 1) (U32.add cy 1);
  n8 ← cellActive cx (U32.add cy 1);
  Some (U32.add (U32.add (U32.add (U32.add (U32.add (U32.add (U32.add
          n1 n2) n3) n4) n5) n6) n7) n8).

(** One invocation: [cellStateOut] is [@binding(2)], threaded through. *)
Definition computeMain (cellStateOut : list Z) (cell : vec3u)
  : option (list Z) :=
  n ← activeNeighbors cell;
  let i := cellIndex (xy cell) in
  match n with
  | 2 => v ← load cellStateIn i; store cellStateOut i v
  | 3 => store cellStateOut i 1
  | _ => store cellStateOut i 0
  end.

(** Invocations run one after the other in the order [sched] gives. *)
Fixpoint runInvocations (sched : list vec3u) (cellStateOut : list Z)
  : option (list Z) :=
  match sched with
  | [] => Some cellStateOut
  | cell :: rest =>
      out ← computeMain cellStateOut cell; runInvocations rest out
  end.

End Shader.

(** [dispatchWorkgroups(countX, countY)] with [@workgroup_size(size, size)]
    starts one invocation per id in
    [[0, countX*size) x [0, countY*size) x {0}]. *)
Definition invocationIds (size countX countY : Z) : list vec3u :=
  cy ← seqZ 0 (countY * size);
  cx ← seqZ 0 (countX * size);
  [Vec3u (vec2 cx cy) 0].

(** The device may run them in any order. *)
Definition schedule (size countX countY : Z) (sched : list vec3u) : Prop :=
  sched ≡ₚ invocationIds size countX countY.

(** ** Device memory and the queue *)

Inductive GPUBuffer :=
| vertexBuffer
| uniformBuffer
| cellStateStorage (k : nat).

Inductive TypedArray :=
| Float32Array (data : list Q)
| Uint32Array (data : list Z).

(** The three entries of a bind group, by binding number. *)
Record BindGroup := {
  binding0 : GPUBuffer;
  binding1 : GPUBuffer;
  binding2 : GPUBuffer
}.

Inductive Pass :=
| ComputePass (bindGroup : BindGroup) (countX countY : Z)
| RenderPass (bindGroup : BindGroup) (vertexCount instanceCount : Z).

Inductive QueueOp :=
| writeBuffer (buffer : GPUBuffer) (data : TypedArray)
| submit (passes : list Pass).

Record Device := {
  vertexMem : list Q;
  uniformMem : list Q;
  storageMem : list (list Z)
}.

(** What a render pass shows: the [state] that [vertexMain] reads for each
    instance. *)
Definition Frame := list Z.

(** [writeBuffer(buffer, 0, data)]: [data] replaces the start of the buffer,
    and must fit. *)
Definition overwrite {A} (data old : list A) : option (list A) :=
  if decide (length data ≤ length old)%nat
  then Some (data ++ drop (length data) old)
  else None.

Definition execWrite (dev : Device) (buffer : GPUBuffer) (data : TypedArray)
  : option Device :=
  match buffer, data with
  | vertexBuffer, Float32Array d =>
      m ← overwrite d (vertexMem dev);
      Some {| vertexMem := m; uniformMem := uniformMem dev;
              storageMem := storageMem dev |}
  | uniformBuffer, Float32Array d =>
      m ← overwrite d (uniformMem dev);
      Some {| vertexMem := vertexMem dev; uniformMem := m;
              storageMem := storageMem dev |}
  | cellStateStorage k, Uint32Array d =>
      old ← storageMem dev !! k;
      m ← overwrite d old;
      Some {| vertexMem := vertexMem dev; uniformMem := uniformMem dev;
              storageMem := <[k := m]> (storageMem dev) |}
  | _, _ => None
  end.

Definition uniformOf (dev : Device) (b : GPUBuffer) : option vec2f :=
  match b, uniformMem dev with
  | uniformBuffer, [gx; gy] => Some (Vec2f gx gy)
  | _, _ => None
  end.

Definition storageOf (dev : Device) (b : GPUBuffer) : option (list Z) :=
  match b with
  | cellStateStorage k => storageMem dev !! k
  | _ => None
  end.

Definition setStorage (dev : Device) (b : GPUBuffer) (m : list Z)
  : option Device :=
  match b with
  | cellStateStorage k =>
      Some {| vertexMem := vertexMem dev; uniformMem := uniformMem dev;
              storageMem := <[k := m]> (storageMem dev) |}
  | _ => None
  end.

(** A compute pass runs the kernel over the bound buffers, its invocations
    in the order [sched]; a render pass only reads binding 1. *)
Definition execPass (sched : list vec3u) (dev : Device) (p : Pass)
  : option (Device * list Frame) :=
  match p with
  | ComputePass bg _ _ =>
      grid ← uniformOf dev (binding0 bg);
      cellStateIn ← storageOf dev (binding1 bg);
      cellStateOut ← storageOf dev (binding2 bg);
      out ← runInvocations grid cellStateIn sched cellStateOut;
      dev' ← setStorage dev (binding2 bg) out;
      Some (dev', [])
  | RenderPass bg _ instanceCount =>
      cellState ← storageOf dev (binding1 bg);
      frame ← mapM (load cellState) (seqZ 0 instanceCount);
      Some (dev, [frame])
  end.

Fixpoint execPasses (sched : list vec3u) (dev : Device) (ps : list Pass)
  : option (Device * list Frame) :=
  match ps with
  | [] => Some (dev, [])
  | p :: rest =>
      '(dev1, f1) ← execPass sched dev p;
      '(dev2, f2) ← execPasses sched dev1 rest;
      Some (dev2, f1 ++ f2)
  end.

Definition execOp (sched : list vec3u) (dev : Device) (op : QueueOp)
  : option (Device * list Frame) :=
  match op with
  | writeBuffer b data => dev' ← execWrite dev b data; Some (dev', [])
  | submit ps => execPasses sched dev ps
  end.

(** ** The host program ([run]) *)

(** [Math.ceil(a / b)] on positive integers. *)
Definition ceilDiv (a b : Z) : Z := - ((- a) / b).

(** The double that the literal [0.6] denotes. *)
Definition threshold : Q := 5404319552844595 # 9007199254740992.

Section Host.

Variable GRID_SIZE : Z.
Variable WORKGROUP_SIZE : Z.
(** [random i] is what the [i]-th call of [Math.random()] returns. *)
Variable random : nat → Q.

(** The [Float32Array] holds each number rounded to a float: 0.8 becomes
    13421773 / 2^24 (the double that the literal denotes and 8/10 round to
    the same float). *)
Definition vertices : list Q :=
  F32.round <$>
    [ -8#10; -8#10;   8#10; -8#10;   8#10; 8#10;
      -8#10; -8#10;   8#10;  8#10;  -8#10; 8#10 ]%Q.

Definition uniformArray : list Q := [inject_Z GRID_SIZE; inject_Z GRID_SIZE].

(** [new Uint32Array(GRID_SIZE * GRID_SIZE)], then the fill loop. *)
Definition cellStateArray : list Z :=
  (λ i, if Qlt_le_dec threshold (random i) then 1 else 0)
    <$> seq 0 (Z.to_nat (GRID_SIZE * GRID_SIZE)).

(** [createBuffer] zero-fills. *)
Definition createDevice : Device :=
  {| vertexMem := replicate (length vertices) 0%Q;
     uniformMem := replicate (length uniformArray) 0%Q;
     storageMem := [ replicate (length cellStateArray) 0;
                     replicate (length cellStateArray) 0 ] |}.

Definition initOps : list QueueOp :=
  [ writeBuffer vertexBuffer (Float32Array vertices);
    writeBuffer uniformBuffer (Float32Array uniformArray);
    writeBuffer (cellStateStorage 0) (Uint32Array cellStateArray) ].

Definition bindGroups : list BindGroup :=
  [ {| binding0 := uniformBuffer;
       binding1 := cellStateStorage 0;
       binding2 := cellStateStorage 1 |};
    {| binding0 := uniformBuffer;
       binding1 := cellStateStorage 1;
       binding2 := cellStateStorage 0 |} ].

(** [step] is a JavaScript number, exact on the integers below 2^53, a
    count of ticks out of reach; it is an integer here. [step % 2] is
    JavaScript's remainder, [Z.rem]. *)
Definition updateGrid (step : Z) : option (Z * QueueOp) :=
  computeGroup ← bindGroups !! Z.to_nat (Z.rem step 2);
  let workgroupCount := ceilDiv GRID_SIZE WORKGROUP_SIZE in
  let step := step + 1 in
  renderGroup ← bindGroups !! Z.to_nat (Z.rem step 2);
  Some (step,
        submit [ ComputePass computeGroup workgroupCount workgroupCount;
                 RenderPass renderGroup
                   (Z.of_nat (length vertices) / 2)
                   (GRID_SIZE * GRID_SIZE) ]).

(** The device after the setup of [run], before the first tick. *)
Definition initDevice : option Device :=
  foldl (λ dev op, d ← dev; fst <$> execOp [] d op) (Some createDevice) initOps.

(** A machine state: the host's [step] and the device. *)
Definition Machine : Type := Z * Device.

Definition initMachine : option Machine := dev ← initDevice; Some (0, dev).

(** One firing of the interval timer. *)
Definition tick (sched : list vec3u) (m : Machine)
  : option (Machine * list Frame) :=
  '(step, op) ← updateGrid (fst m);
  '(dev, frames) ← execOp sched (snd m) op;
  Some ((step, dev), frames).

(** Several ticks, each with the order its invocations ran in. *)
Fixpoint ticks (scheds : list (list vec3u)) (m : Machine) : option Machine :=
  match scheds with
  | [] => Some m
  | sched :: rest => '(m', _) ← tick sched m; ticks rest m'
  end.

(** The invocations of the compute pass that [updateGrid] dispatches. *)
Definition tickInvocations : list vec3u :=
  invocationIds WORKGROUP_SIZE
    (ceilDiv GRID_SIZE WORKGROUP_SIZE) (ceilDiv GRID_SIZE WORKGROUP_SIZE).

End Host.

(** ** Notions used to state the properties *)

(** The transition rule in the words of the specification. *)
Definition specRule (aliveNeighbors input : Z) : Z :=
  if decide (aliveNeighbors = 2) then input
  else if decide (aliveNeighbors = 3) then 1
  else 0.

(** The row-major index of the cell in column [a mod width] and row
    [b mod height], over the integers: [a] and [b] may be -1 or exceed the
    sides. *)
Definition torusIndex (grid : vec2f) (a b : Z) : Z :=
  (b mod U32.of_f32 (fy grid)) * U32.of_f32 (fx grid)
  + a mod U32.of_f32 (fx grid).

(** The indices of the eight Moore neighbours of cell [(a, b)] on the
    torus, in the order in which [computeMain] looks them up. *)
Definition torusNeighbors (grid : vec2f) (a b : Z) : list Z :=
  [ torusIndex grid (a + 1) (b + 1);
    torusIndex grid (a + 1) b;
    torusIndex grid (a + 1) (b - 1);
    torusIndex grid a (b - 1);
    torusIndex grid (a - 1) (b - 1);
    torusIndex grid (a - 1) b;
    torusIndex grid (a - 1) (b + 1);
    torusIndex grid a (b + 1) ].

(** The eight cells that [computeMain] passes to [cellActive], in order. *)
Definition neighborCells (cell : vec3u) : list vec2u :=
  let cx := x (xy cell) in
  let cy := y (xy cell) in
  [ vec2 (U32.add cx 1) (U32.add cy 1);
    vec2 (U32.add cx 1) cy;
    vec2 (U32.add cx 1) (U32.sub cy 1);
    vec2 cx (U32.sub cy 1);
    vec2 (U32.sub cx 1) (U32.sub cy 1);
    vec2 (U32.sub cx 1) cy;
    vec2 (U32.sub cx 1) (U32.add cy 1);
    vec2 cx (U32.add cy 1) ].

(** The wrapping sum of eight neighbour values, as [computeMain] adds them. *)
Definition sumNeighbors (ns : list Z) : option Z :=
  match ns with
  | [n1; n2; n3; n4; n5; n6; n7; n8] =>
      Some (U32.add (U32.add (U32.add (U32.add (U32.add (U32.add (U32.add
              n1 n2) n3) n4) n5) n6) n7) n8)
  | _ => None
  end.

(** The neighbour count read from the input buffer at the given indices. *)
Definition countAt (cellStateIn : list Z) (indices : list Z) : option Z :=
  mapM (load cellStateIn) indices ≫= sumNeighbors.

(** What an invocation writes, and where: it does not depend on the
    output buffer. *)
Definition written (grid : vec2f) (cellStateIn : list Z) (cell : vec3u)
  : option (Z * Z) :=
  n ← activeNeighbors grid cellStateIn cell;
  v ← load cellStateIn (cellIndex grid (xy cell));
  Some (cellIndex grid (xy cell), specRule n v).

(** The invocation that owns cell [i], inside the grid. *)
Definition owner (grid : vec2f) (i : nat) : vec3u :=
  Vec3u (vec2 (Z.of_nat i mod U32.of_f32 (fx grid))
              (Z.of_nat i / U32.of_f32 (fx grid))) 0.

(** The next generation: what each cell's owner writes. *)
Definition nextState (grid : vec2f) (cellStateIn : list Z) : list Z :=
  (λ i, default 0 (snd <$> written grid cellStateIn (owner grid i)))
    <$> seq 0 (Z.to_nat (U32.of_f32 (fx grid) * U32.of_f32 (fy grid))).

(** An invocation agrees with the owner of the cell it writes. *)
Definition agrees (grid : vec2f) (cellStateIn : list Z) (cell : vec3u) : Prop :=
  written grid cellStateIn cell
  = written grid cellStateIn
      (owner grid (Z.to_nat (cellIndex grid (xy cell)))).

(** A cell state is 0 or 1. *)
Definition binary (v : Z) : Prop := v = 0 ∨ v = 1.

(** The grid uniform that [run] uploads. *)
Definition gridOf (GRID_SIZE : Z) : vec2f :=
  Vec2f (inject_Z GRID_SIZE) (inject_Z GRID_SIZE).

(** The number of cells of a storage buffer. *)
Definition cellCount (GRID_SIZE : Z) : nat := Z.to_nat (GRID_SIZE * GRID_SIZE).

(** The device of [run] with cell states [a] (A) and [b] (B). *)
Definition deviceOf (GRID_SIZE : Z) (a b : list Z) : Device :=
  {| vertexMem := vertices;
     uniformMem := uniformArray GRID_SIZE;
     storageMem := [a; b] |}.

(** The machines that occur: both buffers allocated, of the grid's size. *)
Definition wellFormed (GRID_SIZE : Z) (m : Machine) : Prop :=
  0 <= fst m
  ∧ ∃ a b, snd m = deviceOf GRID_SIZE a b
           ∧ length a = cellCount GRID_SIZE ∧ length b = cellCount GRID_SIZE.

(** The side fits 16 bits, so that every cell has its own [u32] index, and
    divides 2^32. *)
Definition dividingSize (GRID_SIZE : Z) : Prop :=
  0 < GRID_SIZE <= 65536 ∧ U32.modulus mod GRID_SIZE = 0.

(** The side fits 16 bits, and either divides 2^32 or is a multiple of the
    workgroup size. *)
Definition functionalSize (GRID_SIZE WORKGROUP_SIZE : Z) : Prop :=
  0 < WORKGROUP_SIZE ∧ 0 < GRID_SIZE <= 65536
  ∧ (U32.modulus mod GRID_SIZE = 0 ∨ GRID_SIZE mod WORKGROUP_SIZE = 0).

(** The orders in which the compute pass of a tick may run. *)
Definition tickSchedule (GRID_SIZE WORKGROUP_SIZE : Z) (sched : list vec3u)
  : Prop :=
  schedule WORKGROUP_SIZE (ceilDiv GRID_SIZE WORKGROUP_SIZE)
    (ceilDiv GRID_SIZE WORKGROUP_SIZE) sched.

(** The next generation of a buffer of the host's grid. *)
Definition generation (GRID_SIZE : Z) (cells : list Z) : list Z :=
  nextState (gridOf GRID_SIZE) cells.

(** The machine after [k] ticks from [step], as a function of the two
    buffers alone. *)
Fixpoint generations (GRID_SIZE : Z) (k : nat) (step : Z) (a b : list Z)
  : Machine :=
  match k with
  | O => (step, deviceOf GRID_SIZE a b)
  | S k =>
      if Z.even step
      then generations GRID_SIZE k (step + 1) a (generation GRID_SIZE a)
      else generations GRID_SIZE k (step + 1) (generation GRID_SIZE b) b
  end.

(** The buffer that the compute pass of the tick after [step] reads. *)
Definition currentBuffer (step : Z) : option GPUBuffer :=
  binding1 <$> bindGroups !! Z.to_nat (step mod 2).

(** Blinkers on the 4x4 torus, centred on row [r] and column [c]: three
    live cells along the row, or along the column. *)
Definition blinkerRow (r c : Z) : list Z :=
  (λ i, if (i / 4 =? r) && negb (i mod 4 =? (c + 2) mod 4) then 1 else 0)
    <$> seqZ 0 16.

Definition blinkerColumn (r c : Z) : list Z :=
  (λ i, if (i mod 4 =? c) && negb (i / 4 =? (r + 2) mod 4) then 1 else 0)
    <$> seqZ 0 16.

(** ** The cell shader

    [vertexMain] and [fragmentMain] compute on 32-bit floats: every
    conversion and every operation yields the float nearest to its exact
    result ([F32.round]), one operation at a time and in the order in which
    the source writes them. *)

Record vec4f := Vec4f { px : Q; py : Q; pz : Q; pw : Q }.

Module VertexInput.
Record t := make { pos : vec2f; instance : Z }.
End VertexInput.

Module VertexOutput.
Record t := make { pos : vec4f; cell : vec2f }.
End VertexOutput.

Definition vertexMain (grid : vec2f) (cellState : list Z)
    (input : VertexInput.t) : option VertexOutput.t :=
  let i := F32.of_u32 (VertexInput.instance input) in
  let cell :=
    Vec2f (F32.rem i (fx grid)) (F32.floor (F32.div i (fx grid))) in
  s ← load cellState (VertexInput.instance input);
  let state := F32.of_u32 s in
  let cellOffset :=
    Vec2f (F32.mul (F32.div (fx cell) (fx grid)) 2)
          (F32.mul (F32.div (fy cell) (fy grid)) 2) in
  let gridPos :=
    Vec2f (F32.add
             (F32.sub
                (F32.div
                   (F32.add (F32.mul (fx (VertexInput.pos input)) state) 1)
                   (fx grid))
                1)
             (fx cellOffset))
          (F32.add
             (F32.sub
                (F32.div
                   (F32.add (F32.mul (fy (VertexInput.pos input)) state) 1)
                   (fy grid))
                1)
             (fy cellOffset)) in
  Some (VertexOutput.make
          (Vec4f (fx gridPos) (fy gridPos) 0 1)
          (Vec2f (F32.div (fx cell) (fx grid)) (F32.div (fy cell) (fy grid)))).



(** ** Further notions: whole runs and whole grids *)

(** The number of live cells among the given indices of the input buffer. *)
Definition liveAt (cellStateIn : list Z) (indices : list Z) : Z :=
  Z.of_nat (length (filter (λ j, load cellStateIn j = Some 1) indices)).

(** [k] generations of a buffer of the host's grid. *)
Definition generationN (GRID_SIZE : Z) (k : nat) (cells : list Z) : list Z :=
  Nat.iter k (generation GRID_SIZE) cells.

(** Several ticks, with the frames they show, in order. *)
Fixpoint ticksFrames (GRID_SIZE WORKGROUP_SIZE : Z)
    (scheds : list (list vec3u)) (m : Machine)
  : option (Machine * list Frame) :=
  match scheds with
  | [] => Some (m, [])
  | sched :: rest =>
      '(m1, shown) ← tick GRID_SIZE WORKGROUP_SIZE sched m;
      '(m2, later) ← ticksFrames GRID_SIZE WORKGROUP_SIZE rest m1;
      Some (m2, shown ++ later)
  end.

(** [cells'] is [cells] moved by [dx] columns and [dy] rows on the torus. *)
Definition translated (grid : vec2f) (dx dy : Z) (cells cells' : list Z)
  : Prop :=
  ∀ a b, load cells' (torusIndex grid (a + dx) (b + dy))
         = load cells (torusIndex grid a b).

(** The machine at [step] whose next compute pass reads [current]: buffer A
    when [step] is even, buffer B when it is odd. *)
Definition machineAt (GRID_SIZE : Z) (step : Z) (current other : list Z)
  : Machine :=
  (step, if Z.even step then deviceOf GRID_SIZE current other
         else deviceOf GRID_SIZE other current).

(** The buffer written one tick before the last one of [k] ticks, [other]
    when there was none. *)
Definition previousGeneration (GRID_SIZE : Z) (k : nat) (cells other : list Z)
  : list Z :=
  match k with
  | O => other
  | S k' => generationN GRID_SIZE k' cells
  end.

(** * Properties *)

(** ** Arithmetic of [u32] *)

Lemma wrap_range n : 0 <= U32.wrap n < U32.modulus.
Proof. unfold U32.wrap. apply Z.mod_pos_bound. reflexivity. Qed.

Lemma wrap_small n : 0 <= n < U32.modulus → U32.wrap n = n.
Proof. intros Hn. unfold U32.wrap. apply Z.mod_small. exact Hn. Qed.

Lemma wrap_le n : 0 <= n → U32.wrap n <= n.
Proof. intros Hn. unfold U32.wrap. apply Z.mod_le; [exact Hn | reflexivity]. Qed.

(** Reducing modulo a divisor of 2^32 forgets the wrap-around. *)
Lemma wrap_mod_divisor n w :
  0 < w → U32.modulus mod w = 0 → U32.wrap n mod w = n mod w.
Proof.
  intros Hw Hdiv. unfold U32.wrap.
  apply Z.mod_mod_divide. apply Z.mod_divide; [lia | exact Hdiv].
Qed.

Lemma rem_pos a b : 0 < b → U32.rem a b = a mod b.
Proof.
  intros Hb. unfold U32.rem. destruct (Z.eqb_spec b 0); [lia | reflexivity].
Qed.

Lemma of_f32_range f : 0 <= U32.of_f32 f < U32.modulus.
Proof. unfold U32.of_f32, U32.modulus. lia. Qed.


(** ** Indices stay inside the grid *)

Section Index.

Variable grid : vec2f.
Let W := U32.of_f32 (fx grid).
Let H := U32.of_f32 (fy grid).
Hypothesis W_pos : 0 < W.
Hypothesis H_pos : 0 < H.

Lemma torusIndex_range a b : 0 <= torusIndex grid a b < W * H.
Proof.
  unfold torusIndex. fold W H.
  pose proof (Z.mod_pos_bound a W W_pos).
  pose proof (Z.mod_pos_bound b H H_pos).
  nia.
Qed.

Lemma cellIndex_range cell : 0 <= cellIndex grid cell < W * H.
Proof.
  unfold cellIndex, U32.add, U32.mul. fold W H.
  rewrite !rem_pos by assumption.
  pose proof (Z.mod_pos_bound (x cell) W W_pos) as Hx.
  pose proof (Z.mod_pos_bound (y cell) H H_pos) as Hy.
  assert (0 <= y cell mod H * W) as Hm by nia.
  pose proof (wrap_range (y cell mod H * W)) as Hr.
  pose proof (wrap_le _ Hm) as Hle.
  assert (0 <= U32.wrap (y cell mod H * W) + x cell mod W) as Hs by lia.
  pose proof (wrap_range (U32.wrap (y cell mod H * W) + x cell mod W)).
  pose proof (wrap_le _ Hs).
  nia.
Qed.

(** Without overflow of the product, the index is the row-major one. *)
Lemma cellIndex_torusIndex cell :
  W * H <= U32.modulus →
  cellIndex grid cell = torusIndex grid (x cell) (y cell).
Proof.
  intros Hfit.
  unfold cellIndex, torusIndex, U32.add, U32.mul. fold W H.
  rewrite !rem_pos by assumption.
  pose proof (Z.mod_pos_bound (x cell) W W_pos) as Hx.
  pose proof (Z.mod_pos_bound (y cell) H H_pos) as Hy.
  rewrite (wrap_small (y cell mod H * W)) by nia.
  apply wrap_small. nia.
Qed.

End Index.

(** ** One invocation *)

Lemma load_Some buf i :
  0 <= i < Z.of_nat (length buf) → ∃ v, load buf i = Some v.
Proof.
  intros Hi. unfold load.
  destruct (lookup_lt_is_Some_2 buf (Z.to_nat i)) as [v Hv]; [lia | eauto].
Qed.

Lemma store_Some buf i v :
  0 <= i < Z.of_nat (length buf) →
  store buf i v = Some (<[Z.to_nat i := v]> buf).
Proof.
  intros Hi. unfold store. destruct (decide _) as [_ | Hn]; [reflexivity | lia].
Qed.

Lemma switch_specRule {A} (n : Z) (two three other : A) :
  match n with 2 => two | 3 => three | _ => other end
  = if decide (n = 2) then two else if decide (n = 3) then three else other.
Proof.
  destruct n as [ | [ [ | | ] | [ | | ] | ] | ]; repeat case_decide;
    try reflexivity; try discriminate; try lia.
Qed.

Section Kernel.

Variable grid : vec2f.
Variable cellStateIn : list Z.
Let W := U32.of_f32 (fx grid).
Let H := U32.of_f32 (fy grid).
Hypothesis W_pos : 0 < W.
Hypothesis H_pos : 0 < H.
Hypothesis In_size : W * H <= Z.of_nat (length cellStateIn).

Lemma cellActive_Some a b : ∃ v, cellActive grid cellStateIn a b = Some v.
Proof.
  unfold cellActive. apply load_Some.
  pose proof (cellIndex_range grid W_pos H_pos (vec2 a b)) as Hi.
  fold W H in Hi. lia.
Qed.

Lemma activeNeighbors_Some cell :
  ∃ n, activeNeighbors grid cellStateIn cell = Some n.
Proof.
  unfold activeNeighbors.
  repeat match goal with
  | |- context [cellActive grid cellStateIn ?a ?b] =>
      let v := fresh "v" in let Hv := fresh "Hv" in
      destruct (cellActive_Some a b) as [v Hv]; rewrite Hv; clear Hv; cbn [mbind option_bind]
  end.
  eauto.
Qed.

Lemma written_Some cell :
  ∃ n v, activeNeighbors grid cellStateIn cell = Some n
         ∧ load cellStateIn (cellIndex grid (xy cell)) = Some v
         ∧ written grid cellStateIn cell = Some (cellIndex grid (xy cell), specRule n v).
Proof.
  destruct (activeNeighbors_Some cell) as [n Hn].
  destruct (load_Some cellStateIn (cellIndex grid (xy cell))) as [v Hv].
  { pose proof (cellIndex_range grid W_pos H_pos (xy cell)) as Hi.
    fold W H in Hi. lia. }
  exists n, v. unfold written. rewrite Hn, Hv. auto.
Qed.

Lemma computeMain_written cellStateOut cell i v :
  written grid cellStateIn cell = Some (i, v) →
  computeMain grid cellStateIn cellStateOut cell = store cellStateOut i v.
Proof.
  destruct (written_Some cell) as (n & u & Hn & Hu & Hw).
  rewrite Hw. intros [= <- <-].
  unfold computeMain. rewrite Hn. cbn [mbind option_bind].
  rewrite switch_specRule, Hu. cbn [mbind option_bind].
  unfold specRule. repeat case_decide; reflexivity.
Qed.

Lemma computeMain_insert cellStateOut cell :
  W * H <= Z.of_nat (length cellStateOut) →
  ∃ i v, written grid cellStateIn cell = Some (i, v) ∧ 0 <= i < W * H
         ∧ computeMain grid cellStateIn cellStateOut cell
           = Some (<[Z.to_nat i := v]> cellStateOut).
Proof.
  intros Hout.
  destruct (written_Some cell) as (n & v & _ & _ & Hw).
  pose proof (cellIndex_range grid W_pos H_pos (xy cell)) as Hi. fold W H in Hi.
  eexists _, _. split; [exact Hw |]. split; [exact Hi |].
  rewrite (computeMain_written _ _ _ _ Hw). apply store_Some. lia.
Qed.

(** Whatever the order and the ids, a dispatch ends, keeps the length of
    the output buffer, and leaves alone the cells no invocation indexes. *)
Lemma runInvocations_Some sched : ∀ cellStateOut,
  W * H <= Z.of_nat (length cellStateOut) →
  ∃ out, runInvocations grid cellStateIn sched cellStateOut = Some out
         ∧ length out = length cellStateOut
         ∧ ∀ j : nat,
             (∀ cell, cell ∈ sched → Z.to_nat (cellIndex grid (xy cell)) ≠ j) →
             out !! j = cellStateOut !! j.
Proof.
  induction sched as [ | cell rest IH]; intros cellStateOut Hout.
  - exists cellStateOut. auto.
  - destruct (computeMain_insert cellStateOut cell Hout) as (i & v & Hw & Hi & Hc).
    cbn [runInvocations]. rewrite Hc. cbn [mbind option_bind].
    destruct (IH (<[Z.to_nat i := v]> cellStateOut)) as (out & Hr & Hlen & Hkeep).
    { rewrite length_insert. exact Hout. }
    exists out. split; [exact Hr |]. rewrite Hlen, length_insert.
    split; [reflexivity |]. intros j Hj.
    rewrite Hkeep by (intros c Hc'; apply Hj; right; exact Hc').
    apply list_lookup_insert_ne.
    destruct (written_Some cell) as (n & u & _ & _ & Hw').
    rewrite Hw' in Hw. injection Hw as <- _.
    apply Hj. left.
Qed.

End Kernel.

(** ** A whole dispatch *)

Lemma elem_of_invocationIds size countX countY cell :
  cell ∈ invocationIds size countX countY
  ↔ 0 <= x (xy cell) < countX * size ∧ 0 <= y (xy cell) < countY * size
    ∧ z cell = 0.
Proof.
  unfold invocationIds. rewrite list_elem_of_bind. split.
  - intros (cy & Hin & Hcy). apply list_elem_of_bind in Hin.
    destruct Hin as (cx & Hin & Hcx).
    apply list_elem_of_singleton in Hin. subst cell. cbn.
    apply elem_of_seqZ in Hcx, Hcy. lia.
  - destruct cell as [[cx cy] cz]. cbn. intros (Hx & Hy & ->).
    exists cy. split; [| apply elem_of_seqZ; lia].
    apply list_elem_of_bind. exists cx. split; [| apply elem_of_seqZ; lia].
    apply list_elem_of_singleton. reflexivity.
Qed.

Section Step.

Variable grid : vec2f.
Variable cellStateIn : list Z.
Let W := U32.of_f32 (fx grid).
Let H := U32.of_f32 (fy grid).
Hypothesis W_pos : 0 < W.
Hypothesis H_pos : 0 < H.
Hypothesis Fit : W * H <= U32.modulus.
Hypothesis In_size : W * H <= Z.of_nat (length cellStateIn).

Lemma length_nextState : length (nextState grid cellStateIn) = Z.to_nat (W * H).
Proof. unfold nextState. fold W H. rewrite length_fmap, length_seq. reflexivity. Qed.

Lemma cellIndex_owner (i : nat) :
  Z.of_nat i < W * H → cellIndex grid (xy (owner grid i)) = Z.of_nat i.
Proof.
  clear In_size. intros Hi. rewrite (cellIndex_torusIndex grid W_pos H_pos) by exact Fit.
  unfold torusIndex, owner. cbn [xy x y]. fold W H.
  rewrite Z.mod_mod by lia.
  assert (0 <= Z.of_nat i / W < H) as Hq.
  { split; [apply Z.div_pos; lia |]. apply Z.div_lt_upper_bound; lia. }
  rewrite (Z.mod_small _ H Hq).
  pose proof (Z.div_mod (Z.of_nat i) W). lia.
Qed.

Lemma nextState_agrees cell i v :
  agrees grid cellStateIn cell → written grid cellStateIn cell = Some (i, v) →
  nextState grid cellStateIn !! Z.to_nat i = Some v.
Proof.
  intros Hag Hw.
  destruct (written_Some grid cellStateIn W_pos H_pos In_size cell)
    as (n & u & _ & _ & Hw').
  rewrite Hw' in Hw. injection Hw as Hi Hv.
  pose proof (cellIndex_range grid W_pos H_pos (xy cell)) as Hr.
  fold W H in Hr. rewrite Hi in Hr.
  unfold nextState. fold W H. rewrite list_lookup_fmap, lookup_seq_lt by lia.
  cbn [fmap option_fmap option_map Nat.add].
  unfold agrees in Hag. rewrite Hi in Hag. rewrite <- Hag, Hw'. cbn.
  congruence.
Qed.

Lemma runInvocations_agree sched : ∀ cellStateOut,
  length cellStateOut = Z.to_nat (W * H) →
  (∀ cell, cell ∈ sched → agrees grid cellStateIn cell) →
  ∃ out, runInvocations grid cellStateIn sched cellStateOut = Some out
         ∧ length out = Z.to_nat (W * H)
         ∧ ∀ j : nat,
             out !! j = nextState grid cellStateIn !! j
             ∨ (out !! j = cellStateOut !! j
                ∧ ∀ cell, cell ∈ sched →
                          Z.to_nat (cellIndex grid (xy cell)) ≠ j).
Proof.
  induction sched as [ | cell rest IH]; intros cellStateOut Hlen Hag.
  - exists cellStateOut. split; [reflexivity |]. split; [exact Hlen |].
    intros j. right. split; [reflexivity |]. intros c Hc. inversion Hc.
  - destruct (computeMain_insert grid cellStateIn W_pos H_pos In_size
                cellStateOut cell) as (i & v & Hw & Hi & Hc).
    { fold W H. lia. }
    fold W H in Hi.
    cbn [runInvocations]. rewrite Hc. cbn [mbind option_bind].
    destruct (IH (<[Z.to_nat i := v]> cellStateOut)) as (out & Hr & Hl & Hj).
    { rewrite length_insert. exact Hlen. }
    { intros c Hin. apply Hag. right. exact Hin. }
    exists out. split; [exact Hr |]. split; [exact Hl |].
    intros j. destruct (Hj j) as [Hnext | [Hsame Hothers]]; [left; exact Hnext |].
    destruct (decide (Z.to_nat i = j)) as [<- | Hne].
    + left. rewrite Hsame, list_lookup_insert_eq by lia.
      symmetry. apply (nextState_agrees cell); [apply Hag; left | exact Hw].
    + right. split.
      * rewrite Hsame. apply list_lookup_insert_ne. exact Hne.
      * intros c Hin. apply elem_of_cons in Hin as [-> | Hin]; [| auto].
        destruct (written_Some grid cellStateIn W_pos H_pos In_size cell)
          as (n & u & _ & _ & Hw').
        rewrite Hw' in Hw. injection Hw as Hi' _. rewrite Hi'. exact Hne.
Qed.

(** When the invocations agree with the owners and cover the grid, the
    dispatch computes [nextState], whatever its order and whatever the
    output buffer held. *)
Lemma runInvocations_nextState sched cellStateOut :
  length cellStateOut = Z.to_nat (W * H) →
  (∀ cell, cell ∈ sched → agrees grid cellStateIn cell) →
  (∀ i : nat, Z.of_nat i < W * H → owner grid i ∈ sched) →
  runInvocations grid cellStateIn sched cellStateOut = Some (nextState grid cellStateIn).
Proof.
  intros Hlen Hag Hcover.
  destruct (runInvocations_agree sched cellStateOut Hlen Hag)
    as (out & Hr & Hl & Hj).
  rewrite Hr. f_equal. apply list_eq. intros j.
  destruct (Hj j) as [Hnext | [_ Hnone]]; [exact Hnext |].
  destruct (decide (Z.of_nat j < W * H)) as [Hlt | Hge].
  - exfalso. apply (Hnone (owner grid j) (Hcover j Hlt)).
    rewrite cellIndex_owner by exact Hlt. lia.
  - rewrite !lookup_ge_None_2; [reflexivity | |].
    + rewrite length_nextState. lia.
    + rewrite Hl. lia.
Qed.

End Step.

(** ** When invocations that write the same cell agree *)

Lemma cellIndex_congr grid a b a' b' :
  a mod U32.of_f32 (fx grid) = a' mod U32.of_f32 (fx grid) →
  b mod U32.of_f32 (fy grid) = b' mod U32.of_f32 (fy grid) →
  cellIndex grid (vec2 a b) = cellIndex grid (vec2 a' b').
Proof.
  intros Ha Hb. unfold cellIndex, U32.rem. cbn [x y].
  repeat destruct (_ =? 0); rewrite ?Ha, ?Hb; reflexivity.
Qed.

Lemma add_mod_congr w a a' d :
  0 < w → U32.modulus mod w = 0 → a mod w = a' mod w →
  U32.add a d mod w = U32.add a' d mod w.
Proof.
  intros Hw Hdiv Ha. unfold U32.add. rewrite !wrap_mod_divisor by assumption.
  rewrite <- (Z.add_mod_idemp_l a), Ha, Z.add_mod_idemp_l by lia. reflexivity.
Qed.

Lemma sub_mod_congr w a a' d :
  0 < w → U32.modulus mod w = 0 → a mod w = a' mod w →
  U32.sub a d mod w = U32.sub a' d mod w.
Proof.
  intros Hw Hdiv Ha. unfold U32.sub. rewrite !wrap_mod_divisor by assumption.
  rewrite <- (Zminus_mod_idemp_l a), Ha, Zminus_mod_idemp_l. reflexivity.
Qed.

Section Agreement.

Variable grid : vec2f.
Variable cellStateIn : list Z.
Let W := U32.of_f32 (fx grid).
Let H := U32.of_f32 (fy grid).
Hypothesis W_pos : 0 < W.
Hypothesis H_pos : 0 < H.
Hypothesis Fit : W * H <= U32.modulus.

Lemma cellActive_congr a b a' b' :
  a mod W = a' mod W → b mod H = b' mod H →
  cellActive grid cellStateIn a b = cellActive grid cellStateIn a' b'.
Proof.
  intros Ha Hb. unfold cellActive.
  rewrite (cellIndex_congr grid a b a' b') by assumption. reflexivity.
Qed.

(** Sides that divide 2^32: ids that are equal modulo the sides count the
    same neighbours. *)
Lemma activeNeighbors_congr cell cell' :
  U32.modulus mod W = 0 → U32.modulus mod H = 0 →
  x (xy cell) mod W = x (xy cell') mod W →
  y (xy cell) mod H = y (xy cell') mod H →
  activeNeighbors grid cellStateIn cell
  = activeNeighbors grid cellStateIn cell'.
Proof.
  intros HW HH Hx Hy. unfold activeNeighbors. cbn zeta.
  pose proof (add_mod_congr W _ _ 1 W_pos HW Hx) as Hx1.
  pose proof (sub_mod_congr W _ _ 1 W_pos HW Hx) as Hx2.
  pose proof (add_mod_congr H _ _ 1 H_pos HH Hy) as Hy1.
  pose proof (sub_mod_congr H _ _ 1 H_pos HH Hy) as Hy2.
  rewrite (cellActive_congr _ _ _ _ Hx1 Hy1), (cellActive_congr _ _ _ _ Hx1 Hy),
    (cellActive_congr _ _ _ _ Hx1 Hy2), (cellActive_congr _ _ _ _ Hx Hy2),
    (cellActive_congr _ _ _ _ Hx2 Hy2), (cellActive_congr _ _ _ _ Hx2 Hy),
    (cellActive_congr _ _ _ _ Hx2 Hy1), (cellActive_congr _ _ _ _ Hx Hy1).
  reflexivity.
Qed.

Lemma owner_coordinates cell :
  let o := owner grid (Z.to_nat (cellIndex grid (xy cell))) in
  x (xy o) = x (xy cell) mod W ∧ y (xy o) = y (xy cell) mod H.
Proof.
  cbn zeta. unfold owner. cbn [xy x y]. fold W H.
  pose proof (cellIndex_range grid W_pos H_pos (xy cell)) as Hr.
  rewrite Z2Nat.id by lia.
  rewrite (cellIndex_torusIndex grid W_pos H_pos) by exact Fit.
  unfold torusIndex. fold W H.
  pose proof (Z.mod_pos_bound (x (xy cell)) W W_pos) as Hx.
  split.
  - rewrite Z.add_comm, Z.mod_add by lia. apply Z.mod_mod. lia.
  - rewrite Z.div_add_l by lia. rewrite (Z.div_small _ W Hx). lia.
Qed.

Lemma agrees_divisors cell :
  U32.modulus mod W = 0 → U32.modulus mod H = 0 →
  agrees grid cellStateIn cell.
Proof.
  intros HW HH. unfold agrees, written.
  destruct (owner_coordinates cell) as [Hx Hy].
  set (o := owner grid (Z.to_nat (cellIndex grid (xy cell)))) in *.
  assert (x (xy cell) mod W = x (xy o) mod W) as Hx'.
  { rewrite Hx, Z.mod_mod by lia. reflexivity. }
  assert (y (xy cell) mod H = y (xy o) mod H) as Hy'.
  { rewrite Hy, Z.mod_mod by lia. reflexivity. }
  rewrite (activeNeighbors_congr cell o HW HH Hx' Hy').
  assert (cellIndex grid (xy cell) = cellIndex grid (xy o)) as ->.
  { destruct (xy cell) as [a b], (xy o) as [a' b']. cbn [x y] in *.
    apply cellIndex_congr; assumption. }
  reflexivity.
Qed.

(** An id inside the grid is the owner of its cell. *)
Lemma agrees_inside cell :
  0 <= x (xy cell) < W → 0 <= y (xy cell) < H → z cell = 0 →
  agrees grid cellStateIn cell.
Proof.
  intros Hx Hy Hz. unfold agrees.
  destruct (owner_coordinates cell) as [Hox Hoy].
  set (o := owner grid (Z.to_nat (cellIndex grid (xy cell)))) in *.
  assert (o = cell) as ->; [| reflexivity].
  rewrite (Z.mod_small _ _ Hx) in Hox. rewrite (Z.mod_small _ _ Hy) in Hoy.
  assert (z o = 0) as Hoz by reflexivity.
  destruct o as [[a b] c], cell as [[a' b'] c']. cbn in *. congruence.
Qed.

End Agreement.

(** ** The host's devices *)

Lemma overwrite_all {A} (data old : list A) :
  length old = length data → overwrite data old = Some data.
Proof.
  intros Hlen. unfold overwrite.
  destruct (decide _) as [_ | Hn]; [| lia].
  rewrite drop_ge by lia. rewrite app_nil_r. reflexivity.
Qed.

Lemma length_cellStateArray GRID_SIZE random :
  length (cellStateArray GRID_SIZE random) = cellCount GRID_SIZE.
Proof. unfold cellStateArray. rewrite length_fmap, length_seq. reflexivity. Qed.

Lemma initMachine_eq GRID_SIZE random :
  initMachine GRID_SIZE random
  = Some (0, deviceOf GRID_SIZE (cellStateArray GRID_SIZE random)
                (replicate (cellCount GRID_SIZE) 0)).
Proof.
  unfold initMachine, initDevice, initOps, createDevice.
  rewrite length_cellStateArray.
  repeat (cbn -[overwrite cellStateArray vertices uniformArray replicate];
          rewrite ?overwrite_all by (rewrite length_replicate; reflexivity)).
  rewrite overwrite_all
    by (rewrite length_replicate, length_cellStateArray; reflexivity).
  reflexivity.
Qed.

Lemma render_all (buf : list Z) (n : Z) :
  length buf = Z.to_nat n → mapM (load buf) (seqZ 0 n) = Some buf.
Proof.
  intros Hlen. apply mapM_Some. apply Forall2_same_length_lookup. split.
  - rewrite length_seqZ. lia.
  - intros i a v Ha Hv. apply lookup_seqZ in Ha as [-> _].
    unfold load. rewrite Z.add_0_l, Nat2Z.id. exact Hv.
Qed.

Lemma parity_cases step :
  0 <= step →
  (Z.rem step 2 = 0 ∧ Z.rem (step + 1) 2 = 1 ∧ Z.even step = true)
  ∨ (Z.rem step 2 = 1 ∧ Z.rem (step + 1) 2 = 0 ∧ Z.even step = false).
Proof.
  intros Hs. rewrite !Z.rem_mod_nonneg by lia.
  rewrite (Zmod_even step), (Zmod_even (step + 1)).
  rewrite Z.add_1_r, Z.even_succ, <- Z.negb_even.
  destruct (Z.even step); cbn; auto.
Qed.

Lemma grid_side GRID_SIZE :
  0 < GRID_SIZE →
  U32.of_f32 (inject_Z GRID_SIZE) = Z.min GRID_SIZE (U32.modulus - 1).
Proof.
  intros Hg. unfold U32.of_f32, inject_Z. cbn [Qnum Qden].
  rewrite Z.quot_1_r. unfold U32.modulus. lia.
Qed.

Section Ticks.

Variable GRID_SIZE : Z.
Variable WORKGROUP_SIZE : Z.
Hypothesis GRID_SIZE_pos : 0 < GRID_SIZE.

Let grid := gridOf GRID_SIZE.
Let n := cellCount GRID_SIZE.

Lemma grid_dims :
  let W := U32.of_f32 (fx grid) in
  let H := U32.of_f32 (fy grid) in
  0 < W ∧ 0 < H ∧ W * H <= Z.of_nat n ∧ W = H.
Proof.
  cbn zeta. unfold grid, gridOf, n, cellCount. cbn [fx fy].
  rewrite grid_side by exact GRID_SIZE_pos. unfold U32.modulus. nia.
Qed.

(** A tick never fails: it runs the kernel from the buffer of the step's
    parity into the other one and shows what was written. *)
Lemma tick_run sched step a b :
  0 <= step → length a = n → length b = n →
  let cin := if Z.even step then a else b in
  let cout := if Z.even step then b else a in
  ∃ out, runInvocations grid cin sched cout = Some out
         ∧ length out = n
         ∧ tick GRID_SIZE WORKGROUP_SIZE sched (step, deviceOf GRID_SIZE a b)
           = Some ((step + 1,
                    if Z.even step then deviceOf GRID_SIZE a out
                    else deviceOf GRID_SIZE out b), [out]).
Proof.
  intros Hstep Ha Hb. cbn zeta.
  destruct grid_dims as (HW & HH & Hsize & _).
  assert (∀ cin cout, length cin = n → length cout = n →
          ∃ out, runInvocations grid cin sched cout = Some out
                 ∧ length out = n) as Hrun.
  { intros cin cout Hin Hout.
    destruct (runInvocations_Some grid cin HW HH ltac:(lia) sched cout ltac:(lia))
      as (out & Hr & Hl & _).
    exists out. split; [exact Hr | lia]. }
  unfold tick, updateGrid, bindGroups. cbn [fst snd].
  destruct (parity_cases step Hstep) as [(-> & -> & ->) | (-> & -> & ->)];
    change (Z.to_nat 0) with 0%nat; change (Z.to_nat 1) with 1%nat.
  - destruct (Hrun a b Ha Hb) as (out & Hr & Hl).
    exists out. split; [exact Hr |]. split; [exact Hl |].
    cbn -[ceilDiv Z.div Z.mul runInvocations].
    change (Vec2f (inject_Z GRID_SIZE) (inject_Z GRID_SIZE)) with grid.
    rewrite Hr. cbn -[ceilDiv Z.div Z.mul].
    rewrite render_all by exact Hl. reflexivity.
  - destruct (Hrun b a Hb Ha) as (out & Hr & Hl).
    exists out. split; [exact Hr |]. split; [exact Hl |].
    cbn -[ceilDiv Z.div Z.mul runInvocations].
    change (Vec2f (inject_Z GRID_SIZE) (inject_Z GRID_SIZE)) with grid.
    rewrite Hr. cbn -[ceilDiv Z.div Z.mul].
    rewrite render_all by exact Hl. reflexivity.
Qed.

Lemma tick_wellFormed sched m :
  wellFormed GRID_SIZE m →
  ∃ m' frames, tick GRID_SIZE WORKGROUP_SIZE sched m = Some (m', frames)
               ∧ fst m' = fst m + 1 ∧ wellFormed GRID_SIZE m'.
Proof.
  destruct m as [step dev]. intros (Hs & a & b & Hd & Ha & Hb).
  cbn [fst snd] in *. subst dev.
  destruct (tick_run sched step a b Hs Ha Hb) as (out & _ & Hl & Ht).
  eexists _, _. split; [exact Ht |]. split; [reflexivity |].
  split; [cbn; lia |]. cbn [snd].
  destruct (Z.even step); eauto 6.
Qed.

Lemma ticks_wellFormed scheds : ∀ m,
  wellFormed GRID_SIZE m →
  ∃ m', ticks GRID_SIZE WORKGROUP_SIZE scheds m = Some m'
        ∧ fst m' = fst m + Z.of_nat (length scheds) ∧ wellFormed GRID_SIZE m'.
Proof.
  induction scheds as [ | sched rest IH]; intros m Hm.
  - exists m. cbn. split; [reflexivity |]. split; [lia | exact Hm].
  - destruct (tick_wellFormed sched m Hm) as (m1 & frames & Ht & Hs & Hm1).
    destruct (IH m1 Hm1) as (m' & Hr & Hs' & Hm').
    exists m'. cbn [ticks]. rewrite Ht. cbn [mbind option_bind].
    split; [exact Hr |]. split; [| exact Hm'].
    rewrite Hs', Hs. cbn [length]. lia.
Qed.

End Ticks.

(** ** Sizes on which a tick is a function of its input *)

Lemma ceilDiv_cover a b : 0 < b → a <= ceilDiv a b * b.
Proof.
  intros Hb. unfold ceilDiv.
  pose proof (Z.div_mod (- a) b ltac:(lia)).
  pose proof (Z.mod_pos_bound (- a) b Hb). nia.
Qed.

Lemma ceilDiv_exact a b : 0 < b → a mod b = 0 → ceilDiv a b * b = a.
Proof.
  intros Hb Hdiv. unfold ceilDiv.
  rewrite Z.div_opp_l_z by lia.
  pose proof (Z.div_mod a b ltac:(lia)). nia.
Qed.

Section Functional.

Variable GRID_SIZE : Z.
Variable WORKGROUP_SIZE : Z.
Hypothesis Size : functionalSize GRID_SIZE WORKGROUP_SIZE.

Let grid := gridOf GRID_SIZE.
Let n := cellCount GRID_SIZE.

Lemma functional_side :
  U32.of_f32 (fx grid) = GRID_SIZE ∧ U32.of_f32 (fy grid) = GRID_SIZE.
Proof.
  destruct Size as (_ & Hg & _). unfold grid, gridOf. cbn [fx fy].
  rewrite grid_side by lia. unfold U32.modulus. lia.
Qed.

Lemma length_generation cells : length (generation GRID_SIZE cells) = n.
Proof.
  unfold generation. rewrite length_nextState. fold grid.
  destruct functional_side as [-> ->]. reflexivity.
Qed.

Lemma dispatch_generation sched cin cout :
  (∀ cell, cell ∈ sched ↔ cell ∈ tickInvocations GRID_SIZE WORKGROUP_SIZE) →
  length cin = n → length cout = n →
  runInvocations grid cin sched cout = Some (generation GRID_SIZE cin).
Proof.
  intros Hsched Hin Hout.
  destruct functional_side as [HW HH].
  destruct Size as (Hwg & Hg & Hcase).
  assert (0 < U32.of_f32 (fx grid)) as HWpos by lia.
  assert (0 < U32.of_f32 (fy grid)) as HHpos by lia.
  assert (U32.of_f32 (fx grid) * U32.of_f32 (fy grid) <= U32.modulus) as Hfit.
  { rewrite HW, HH. unfold U32.modulus. nia. }
  assert (Z.to_nat (U32.of_f32 (fx grid) * U32.of_f32 (fy grid)) = n) as Hn.
  { rewrite HW, HH. reflexivity. }
  apply runInvocations_nextState; try assumption.
  - rewrite HW, HH. unfold n, cellCount in Hin. lia.
  - congruence.
  - intros cell Hcell. destruct Hcase as [Hdiv | Hmul].
    + apply agrees_divisors; try assumption; congruence.
    + apply Hsched, elem_of_invocationIds in Hcell.
      rewrite (ceilDiv_exact _ _ Hwg Hmul) in Hcell.
      apply agrees_inside; try assumption; rewrite ?HW, ?HH; tauto.
  - intros i Hi. apply Hsched, elem_of_invocationIds.
    unfold owner. cbn [xy x y z]. rewrite HW, HH in *.
    pose proof (ceilDiv_cover GRID_SIZE WORKGROUP_SIZE Hwg).
    pose proof (Z.mod_pos_bound (Z.of_nat i) GRID_SIZE ltac:(lia)).
    assert (0 <= Z.of_nat i / GRID_SIZE < GRID_SIZE).
    { split; [apply Z.div_pos; lia |]. apply Z.div_lt_upper_bound; lia. }
    lia.
Qed.

(** A tick on such a size: the buffer of the step's parity is read, the
    other one receives its next generation, and that is what is shown. *)
Lemma tick_generation sched step a b :
  tickSchedule GRID_SIZE WORKGROUP_SIZE sched →
  0 <= step → length a = n → length b = n →
  tick GRID_SIZE WORKGROUP_SIZE sched (step, deviceOf GRID_SIZE a b)
  = Some (if Z.even step
          then ((step + 1, deviceOf GRID_SIZE a (generation GRID_SIZE a)),
                [generation GRID_SIZE a])
          else ((step + 1, deviceOf GRID_SIZE (generation GRID_SIZE b) b),
                [generation GRID_SIZE b])).
Proof.
  intros Hsched Hstep Ha Hb.
  assert (∀ cell, cell ∈ sched ↔ cell ∈ tickInvocations GRID_SIZE WORKGROUP_SIZE)
    as Hmem.
  { intros cell. unfold tickSchedule, schedule in Hsched. rewrite Hsched.
    reflexivity. }
  destruct Size as (_ & Hg & _).
  destruct (tick_run GRID_SIZE WORKGROUP_SIZE ltac:(lia) sched step a b
              Hstep Ha Hb) as (out & Hr & _ & Ht).
  rewrite Ht. fold grid in Hr.
  destruct (Z.even step);
    rewrite dispatch_generation in Hr by assumption;
    injection Hr as <-; reflexivity.
Qed.

Lemma ticks_generations scheds : ∀ step a b,
  Forall (tickSchedule GRID_SIZE WORKGROUP_SIZE) scheds →
  0 <= step → length a = n → length b = n →
  ticks GRID_SIZE WORKGROUP_SIZE scheds (step, deviceOf GRID_SIZE a b)
  = Some (generations GRID_SIZE (length scheds) step a b).
Proof.
  induction scheds as [ | sched rest IH]; intros step a b Hs Hstep Ha Hb.
  - reflexivity.
  - apply Forall_cons in Hs as [Hsched Hrest].
    cbn [ticks length generations].
    rewrite (tick_generation sched step a b Hsched Hstep Ha Hb).
    destruct (Z.even step); cbn [mbind option_bind];
      apply IH; try assumption; try lia; apply length_generation.
Qed.

End Functional.

(** * The transition rule *)

(** One invocation of [computeMain] sums its eight lookups in the input
    buffer ([activeNeighbors]) and writes, at the index of its cell and
    nowhere else, the input value of the cell if the sum is 2, the value 1
    if the sum is 3, and 0 otherwise. For an id inside a grid of at most
    2^32 cells that index is the row-major one, [y * width + x]. Which
    cells the eight lookups read is settled further on, for a whole compute
    step. *)
Theorem computeMain_rule grid cellStateIn cellStateOut cell :
  let W := U32.of_f32 (fx grid) in
  let H := U32.of_f32 (fy grid) in
  let i := cellIndex grid (xy cell) in
  0 < W → 0 < H →
  W * H <= Z.of_nat (length cellStateIn) →
  W * H <= Z.of_nat (length cellStateOut) →
  ∃ aliveNeighbors input out,
    activeNeighbors grid cellStateIn cell = Some aliveNeighbors
    ∧ load cellStateIn i = Some input
    ∧ computeMain grid cellStateIn cellStateOut cell = Some out
    ∧ (aliveNeighbors = 2 → load out i = Some input)
    ∧ (aliveNeighbors = 3 → load out i = Some 1)
    ∧ (aliveNeighbors ≠ 2 → aliveNeighbors ≠ 3 → load out i = Some 0)
    ∧ (∀ j : nat, j ≠ Z.to_nat i → out !! j = cellStateOut !! j)
    ∧ (W * H <= U32.modulus →
       0 <= x (xy cell) < W → 0 <= y (xy cell) < H →
       i = y (xy cell) * W + x (xy cell)).
Proof.
  intros W H i HW HH Hin Hout.
  destruct (written_Some grid cellStateIn HW HH Hin cell)
    as (n & v & Hn & Hv & Hw).
  pose proof (cellIndex_range grid HW HH (xy cell)) as Hi.
  fold W H i in Hi, Hv, Hw.
  exists n, v, (<[Z.to_nat i := specRule n v]> cellStateOut).
  split; [exact Hn |]. split; [exact Hv |]. split.
  { rewrite (computeMain_written grid cellStateIn HW HH Hin _ _ _ _ Hw).
    apply store_Some. lia. }
  assert (load (<[Z.to_nat i := specRule n v]> cellStateOut) i
          = Some (specRule n v)) as Hload.
  { unfold load. apply list_lookup_insert_eq. lia. }
  rewrite Hload. unfold specRule.
  repeat split.
  - intros ->. reflexivity.
  - intros ->. reflexivity.
  - intros H2 H3. repeat case_decide; congruence.
  - intros j Hj. apply list_lookup_insert_ne. congruence.
  - intros Hfit Hx Hy. unfold i.
    rewrite (cellIndex_torusIndex grid HW HH) by exact Hfit.
    unfold torusIndex. fold W H.
    rewrite (Z.mod_small _ _ Hx), (Z.mod_small _ _ Hy). reflexivity.
Qed.

(** * Bounds of the buffer accesses *)

(** C6. On a grid of positive sides whose buffers hold at least
    width*height cells, every index that [cellIndex] produces, for every
    invocation id and every neighbour offset, is below width*height; no
    invocation and no dispatch, in any order and over any ids, makes an
    access outside the buffers, and the cells from width*height on are
    never written. *)
Theorem accesses_in_bounds grid cellStateIn cellStateOut :
  let W := U32.of_f32 (fx grid) in
  let H := U32.of_f32 (fy grid) in
  0 < W → 0 < H →
  W * H <= Z.of_nat (length cellStateIn) →
  W * H <= Z.of_nat (length cellStateOut) →
  (∀ cell : vec2u, 0 <= cellIndex grid cell < W * H)
  ∧ (∀ a b, is_Some (cellActive grid cellStateIn a b))
  ∧ (∀ cell,
       ∃ out, computeMain grid cellStateIn cellStateOut cell = Some out
              ∧ length out = length cellStateOut
              ∧ ∀ j : nat, W * H <= Z.of_nat j → out !! j = cellStateOut !! j)
  ∧ (∀ sched,
       ∃ out, runInvocations grid cellStateIn sched cellStateOut = Some out
              ∧ length out = length cellStateOut
              ∧ ∀ j : nat, W * H <= Z.of_nat j → out !! j = cellStateOut !! j).
Proof.
  intros W H HW HH Hin Hout.
  assert (∀ cell : vec2u, 0 <= cellIndex grid cell < W * H) as Hidx.
  { intros cell. apply cellIndex_range; assumption. }
  split; [exact Hidx |]. split.
  { intros a b. destruct (cellActive_Some grid cellStateIn HW HH Hin a b) as [v Hv].
    rewrite Hv. eauto. }
  assert (∀ sched,
       ∃ out, runInvocations grid cellStateIn sched cellStateOut = Some out
              ∧ length out = length cellStateOut
              ∧ ∀ j : nat, W * H <= Z.of_nat j → out !! j = cellStateOut !! j)
    as Hrun.
  { intros sched.
    destruct (runInvocations_Some grid cellStateIn HW HH Hin sched
                cellStateOut Hout) as (out & Hr & Hl & Hkeep).
    exists out. split; [exact Hr |]. split; [exact Hl |].
    intros j Hj. apply Hkeep. intros c _.
    specialize (Hidx (xy c)). lia. }
  split; [| exact Hrun].
  intros cell. destruct (Hrun [cell]) as (out & Hr & Hrest).
  exists out. split; [| exact Hrest].
  cbn [runInvocations] in Hr.
  destruct (computeMain grid cellStateIn cellStateOut cell); [exact Hr | discriminate].
Qed.

(** * Toroidal neighbours *)

Lemma activeNeighbors_countAt grid cellStateIn cell :
  activeNeighbors grid cellStateIn cell
  = countAt cellStateIn (cellIndex grid <$> neighborCells cell).
Proof.
  unfold activeNeighbors, countAt, neighborCells, cellActive.
  cbn [fmap list_fmap mapM].
  repeat match goal with
  | |- ?m ≫= _ = _ => destruct m; cbn; try reflexivity
  end.
Qed.

Lemma cellIndex_torus grid a b a' b' :
  0 < U32.of_f32 (fx grid) → 0 < U32.of_f32 (fy grid) →
  U32.of_f32 (fx grid) * U32.of_f32 (fy grid) <= U32.modulus →
  a mod U32.of_f32 (fx grid) = a' mod U32.of_f32 (fx grid) →
  b mod U32.of_f32 (fy grid) = b' mod U32.of_f32 (fy grid) →
  cellIndex grid (vec2 a b) = torusIndex grid a' b'.
Proof.
  intros HW HH Hfit Ha Hb.
  rewrite (cellIndex_torusIndex grid HW HH) by exact Hfit.
  unfold torusIndex. cbn [x y]. rewrite Ha, Hb. reflexivity.
Qed.

(** On sides that divide 2^32 the wrap-around of [x-1] and [x+1] is
    invisible after the reduction modulo the side. *)
Lemma neighborCells_torusNeighbors grid cell :
  let W := U32.of_f32 (fx grid) in
  let H := U32.of_f32 (fy grid) in
  0 < W → 0 < H → W * H <= U32.modulus →
  U32.modulus mod W = 0 → U32.modulus mod H = 0 →
  cellIndex grid <$> neighborCells cell
  = torusNeighbors grid (x (xy cell)) (y (xy cell)).
Proof.
  intros W H HW HH Hfit HdW HdH.
  unfold neighborCells, torusNeighbors. cbn [fmap list_fmap].
  repeat f_equal; apply cellIndex_torus; try assumption; try reflexivity;
    unfold U32.add, U32.sub; apply wrap_mod_divisor; assumption.
Qed.

(** C2, as amended. When the width and the height of the grid divide 2^32
    and the grid has at most 2^32 cells, the eight cells that an invocation
    looks up are the Moore neighbours on the torus: each coordinate is
    reduced modulo the width or the height, also where [x-1] or [y-1] has
    wrapped around 2^32, so that a cell on one edge has its neighbours on
    the opposite edge. *)
Theorem neighbors_toroidal grid cellStateIn cell :
  let W := U32.of_f32 (fx grid) in
  let H := U32.of_f32 (fy grid) in
  0 < W → 0 < H → W * H <= U32.modulus →
  U32.modulus mod W = 0 → U32.modulus mod H = 0 →
  cellIndex grid <$> neighborCells cell
  = torusNeighbors grid (x (xy cell)) (y (xy cell))
  ∧ activeNeighbors grid cellStateIn cell
    = countAt cellStateIn (torusNeighbors grid (x (xy cell)) (y (xy cell))).
Proof.
  intros W H HW HH Hfit HdW HdH.
  pose proof (neighborCells_torusNeighbors grid cell HW HH Hfit HdW HdH) as Heq.
  split; [exact Heq |].
  rewrite activeNeighbors_countAt, Heq. reflexivity.
Qed.

(** On the 4x4 grid the neighbours of cell (0,0) are the cells (1,1), (1,0),
    (1,3), (0,3), (3,3), (3,0), (3,1) and (0,1). *)
Lemma neighbors_toroidal_4x4 :
  (0 < U32.of_f32 (fx (gridOf 4)) ∧ 0 < U32.of_f32 (fy (gridOf 4))
   ∧ U32.of_f32 (fx (gridOf 4)) * U32.of_f32 (fy (gridOf 4)) <= U32.modulus
   ∧ U32.modulus mod U32.of_f32 (fx (gridOf 4)) = 0
   ∧ U32.modulus mod U32.of_f32 (fy (gridOf 4)) = 0)
  ∧ (cellIndex (gridOf 4) <$> neighborCells (Vec3u (vec2 0 0) 0)
     = torusNeighbors (gridOf 4) 0 0
     ∧ activeNeighbors (gridOf 4) (blinkerRow 1 1) (Vec3u (vec2 0 0) 0)
       = countAt (blinkerRow 1 1) (torusNeighbors (gridOf 4) 0 0))
  ∧ torusNeighbors (gridOf 4) 0 0 = [5; 1; 13; 12; 15; 3; 7; 4].
Proof.
  split; [| split].
  - repeat split; vm_compute; congruence.
  - apply (neighbors_toroidal (gridOf 4) (blinkerRow 1 1) (Vec3u (vec2 0 0) 0));
      vm_compute; congruence.
  - vm_compute. reflexivity.
Defined.

(** On the 3x3 grid the neighbours of cell (0,0) are not the toroidal ones:
    [0 - 1] wraps to 2^32 - 1, a multiple of 3, so that the left neighbour
    is looked up in column 0 instead of column 2. *)
Lemma neighbors_not_toroidal_3x3 :
  cellIndex (gridOf 3) <$> neighborCells (Vec3u (vec2 0 0) 0)
  ≠ torusNeighbors (gridOf 3) 0 0.
Proof. vm_compute. discriminate. Qed.

(** * The two buffers of a tick *)

(** C3. In every tick the compute pass uses [bindGroups[step mod 2]], which
    reads one cell-state buffer and writes the other one, and after the
    increment of [step] the render pass uses [bindGroups[(step+1) mod 2]],
    whose input is the buffer that the compute pass has just written: the
    frame shows the output of this tick's dispatch, and the buffer that the
    dispatch read is left as it was. *)
Theorem tick_buffers GRID_SIZE WORKGROUP_SIZE sched step a b :
  0 < GRID_SIZE → 0 <= step →
  length a = cellCount GRID_SIZE → length b = cellCount GRID_SIZE →
  let dev := deviceOf GRID_SIZE a b in
  ∃ computeGroup renderGroup cellStateIn cellStateOut out dev',
    bindGroups !! Z.to_nat (step mod 2) = Some computeGroup
    ∧ bindGroups !! Z.to_nat ((step + 1) mod 2) = Some renderGroup
    ∧ updateGrid GRID_SIZE WORKGROUP_SIZE step
      = Some (step + 1,
              submit [ ComputePass computeGroup
                         (ceilDiv GRID_SIZE WORKGROUP_SIZE)
                         (ceilDiv GRID_SIZE WORKGROUP_SIZE);
                       RenderPass renderGroup 6 (GRID_SIZE * GRID_SIZE) ])
    ∧ binding1 computeGroup = cellStateStorage (Z.to_nat (step mod 2))
    ∧ binding2 computeGroup = cellStateStorage (Z.to_nat ((step + 1) mod 2))
    ∧ binding1 computeGroup ≠ binding2 computeGroup
    ∧ binding1 renderGroup = binding2 computeGroup
    ∧ storageOf dev (binding1 computeGroup) = Some cellStateIn
    ∧ storageOf dev (binding2 computeGroup) = Some cellStateOut
    ∧ runInvocations (gridOf GRID_SIZE) cellStateIn sched cellStateOut
      = Some out
    ∧ tick GRID_SIZE WORKGROUP_SIZE sched (step, dev)
      = Some ((step + 1, dev'), [out])
    ∧ storageOf dev' (binding1 renderGroup) = Some out
    ∧ storageOf dev' (binding1 computeGroup) = Some cellStateIn.
Proof.
  intros Hg Hstep Ha Hb dev.
  destruct (tick_run GRID_SIZE WORKGROUP_SIZE Hg sched step a b Hstep Ha Hb)
    as (out & Hr & _ & Ht).
  unfold updateGrid, bindGroups. rewrite <- !Z.rem_mod_nonneg by lia.
  destruct (parity_cases step Hstep) as [(E0 & E1 & Ev) | (E0 & E1 & Ev)];
    rewrite E0, E1; rewrite Ev in Hr, Ht;
    change (Z.to_nat 0) with 0%nat; change (Z.to_nat 1) with 1%nat;
    cbn [lookup list_lookup mbind option_bind].
  - exists (Build_BindGroup uniformBuffer (cellStateStorage 0) (cellStateStorage 1)),
      (Build_BindGroup uniformBuffer (cellStateStorage 1) (cellStateStorage 0)),
      a, b, out, (deviceOf GRID_SIZE a out).
    repeat split; try reflexivity; try exact Hr; try exact Ht; discriminate.
  - exists (Build_BindGroup uniformBuffer (cellStateStorage 1) (cellStateStorage 0)),
      (Build_BindGroup uniformBuffer (cellStateStorage 0) (cellStateStorage 1)),
      b, a, out, (deviceOf GRID_SIZE out b).
    repeat split; try reflexivity; try exact Hr; try exact Ht; discriminate.
Qed.

Lemma tick_buffers_witness :
  ∃ out dev',
    tick 4 8 (tickInvocations 4 8)
      (1, deviceOf 4 (blinkerRow 1 1) (blinkerColumn 1 1))
    = Some ((2, dev'), [out])
    ∧ storageOf dev' (cellStateStorage 0) = Some out
    ∧ storageOf dev' (cellStateStorage 1) = Some (blinkerColumn 1 1).
Proof.
  destruct (tick_buffers 4 8 (tickInvocations 4 8) 1
              (blinkerRow 1 1) (blinkerColumn 1 1))
    as (cg & rg & cin & cout & out & dev' & Hc & Hrg & _ & _ & _ & _ & _
        & Hin & _ & _ & Ht & Hshown & Hkept);
    [reflexivity | discriminate | reflexivity | reflexivity |].
  injection Hc as <-. injection Hrg as <-. injection Hin as <-.
  exists out, dev'. auto.
Defined.

(** * The step counter *)

(** C4. [step] starts at zero and every tick adds one to it, so that after
    N ticks it is N; the buffer that is current after N ticks, the one the
    next compute pass reads, is A when N is even and B when N is odd, and
    the tick that takes [step] from k to k+1 reads the buffer current at k
    and writes the buffer current at k+1: the first tick reads A and
    writes B. *)
Theorem step_counts_ticks GRID_SIZE WORKGROUP_SIZE random scheds :
  0 < GRID_SIZE →
  (∃ dev m,
     initMachine GRID_SIZE random = Some (0, dev)
     ∧ ticks GRID_SIZE WORKGROUP_SIZE scheds (0, dev) = Some m
     ∧ fst m = Z.of_nat (length scheds)
     ∧ currentBuffer (fst m)
       = Some (cellStateStorage (if Z.even (fst m) then 0 else 1)))
  ∧ (∀ sched m, wellFormed GRID_SIZE m →
       ∃ m' frames, tick GRID_SIZE WORKGROUP_SIZE sched m = Some (m', frames)
                    ∧ fst m' = fst m + 1 ∧ wellFormed GRID_SIZE m')
  ∧ (∀ k, 0 <= k →
       ∃ computeGroup renderGroup,
         updateGrid GRID_SIZE WORKGROUP_SIZE k
         = Some (k + 1,
                 submit [ ComputePass computeGroup
                            (ceilDiv GRID_SIZE WORKGROUP_SIZE)
                            (ceilDiv GRID_SIZE WORKGROUP_SIZE);
                          RenderPass renderGroup 6 (GRID_SIZE * GRID_SIZE) ])
         ∧ currentBuffer k = Some (binding1 computeGroup)
         ∧ currentBuffer (k + 1) = Some (binding2 computeGroup)
         ∧ binding1 computeGroup
           = cellStateStorage (if Z.even k then 0 else 1)
         ∧ binding2 computeGroup
           = cellStateStorage (if Z.even k then 1 else 0)).
Proof.
  intros Hg. split; [| split].
  - rewrite initMachine_eq.
    destruct (ticks_wellFormed GRID_SIZE WORKGROUP_SIZE Hg scheds
                (0, deviceOf GRID_SIZE (cellStateArray GRID_SIZE random)
                      (replicate (cellCount GRID_SIZE) 0)))
      as (m & Hr & Hs & Hwf).
    { split; [cbn; lia |]. eexists _, _. split; [reflexivity |].
      rewrite length_cellStateArray, length_replicate. auto. }
    eexists _, m. split; [reflexivity |]. split; [exact Hr |].
    cbn [fst] in Hs. split; [lia |].
    unfold currentBuffer, bindGroups. rewrite Zmod_even.
    destruct (Z.even (fst m)); reflexivity.
  - intros sched m Hm. apply tick_wellFormed; assumption.
  - intros k Hk. unfold currentBuffer, updateGrid, bindGroups.
    rewrite <- !Z.rem_mod_nonneg by lia.
    destruct (parity_cases k Hk) as [(-> & -> & ->) | (-> & -> & ->)];
      eexists _, _; repeat split.
Qed.

Lemma step_counts_ticks_witness :
  ∃ dev m,
    initMachine 4 (λ _, 0%Q) = Some (0, dev)
    ∧ ticks 4 8 [tickInvocations 4 8; tickInvocations 4 8; tickInvocations 4 8]
        (0, dev) = Some m
    ∧ fst m = 3
    ∧ currentBuffer (fst m)
      = Some (cellStateStorage (if Z.even (fst m) then 0 else 1)).
Proof.
  apply (step_counts_ticks 4 8 (λ _, 0%Q)
           [tickInvocations 4 8; tickInvocations 4 8; tickInvocations 4 8]).
  reflexivity.
Defined.

(** * Initialisation *)


(** * Determinism *)

(** C5, as amended. When the side of the grid fits 16 bits and either
    divides 2^32 or is a multiple of the workgroup size, two runs of the
    same number of ticks from the same two buffers end in the same machine,
    whatever the order in which the invocations of each compute pass ran:
    the result is a function of the initial buffers and of the number of
    ticks alone. *)
Theorem ticks_deterministic GRID_SIZE WORKGROUP_SIZE a b scheds1 scheds2 :
  functionalSize GRID_SIZE WORKGROUP_SIZE →
  length a = cellCount GRID_SIZE → length b = cellCount GRID_SIZE →
  length scheds1 = length scheds2 →
  Forall (tickSchedule GRID_SIZE WORKGROUP_SIZE) scheds1 →
  Forall (tickSchedule GRID_SIZE WORKGROUP_SIZE) scheds2 →
  ∃ m,
    ticks GRID_SIZE WORKGROUP_SIZE scheds1 (0, deviceOf GRID_SIZE a b) = Some m
    ∧ ticks GRID_SIZE WORKGROUP_SIZE scheds2 (0, deviceOf GRID_SIZE a b) = Some m
    ∧ m = generations GRID_SIZE (length scheds1) 0 a b.
Proof.
  intros Hsize Ha Hb Hlen Hs1 Hs2.
  exists (generations GRID_SIZE (length scheds1) 0 a b).
  split; [| split; [rewrite Hlen |]];
    try (apply (ticks_generations GRID_SIZE WORKGROUP_SIZE Hsize);
         [assumption | lia | assumption | assumption]).
  reflexivity.
Qed.

Lemma tickInvocations_schedule GRID_SIZE WORKGROUP_SIZE :
  tickSchedule GRID_SIZE WORKGROUP_SIZE
    (tickInvocations GRID_SIZE WORKGROUP_SIZE).
Proof. unfold tickSchedule, schedule, tickInvocations. reflexivity. Qed.

Lemma reverse_schedule GRID_SIZE WORKGROUP_SIZE :
  tickSchedule GRID_SIZE WORKGROUP_SIZE
    (reverse (tickInvocations GRID_SIZE WORKGROUP_SIZE)).
Proof. unfold tickSchedule, schedule, tickInvocations. apply reverse_Permutation. Qed.

Lemma ticks_deterministic_witness :
  ∃ m,
    ticks 4 8 [tickInvocations 4 8; reverse (tickInvocations 4 8)]
      (0, deviceOf 4 (blinkerRow 1 1) (replicate 16 0)) = Some m
    ∧ ticks 4 8 [reverse (tickInvocations 4 8); tickInvocations 4 8]
        (0, deviceOf 4 (blinkerRow 1 1) (replicate 16 0)) = Some m
    ∧ m = generations 4 2 0 (blinkerRow 1 1) (replicate 16 0).
Proof.
  apply (ticks_deterministic 4 8 (blinkerRow 1 1) (replicate 16 0)
           [tickInvocations 4 8; reverse (tickInvocations 4 8)]
           [reverse (tickInvocations 4 8); tickInvocations 4 8]).
  - unfold functionalSize. vm_compute. intuition congruence.
  - reflexivity.
  - reflexivity.
  - reflexivity.
  - constructor; [apply tickInvocations_schedule |].
    constructor; [apply reverse_schedule | constructor].
  - constructor; [apply reverse_schedule |].
    constructor; [apply tickInvocations_schedule | constructor].
Defined.

(** On the 3x3 grid with workgroups of 8x8, one workgroup of 64 invocations
    is dispatched; the invocations (0,0) and (3,0) both write cell 0, the
    first after looking to its left in column 0, the second in column 2.
    Two orders of the same dispatch give two different buffers. *)
Lemma ticks_race_3x3 :
  let a := [0; 0; 1; 0; 0; 1; 0; 0; 1] in
  let b := replicate 9 0 in
  Forall binary a ∧ Forall binary b
  ∧ tickSchedule 3 8 (tickInvocations 3 8)
  ∧ tickSchedule 3 8 (reverse (tickInvocations 3 8))
  ∧ ticks 3 8 [tickInvocations 3 8] (0, deviceOf 3 a b)
    ≠ ticks 3 8 [reverse (tickInvocations 3 8)] (0, deviceOf 3 a b).
Proof.
  cbn zeta. split; [| split; [| split; [| split]]].
  - repeat (apply Forall_cons_2; [unfold binary; lia |]). apply Forall_nil_2.
  - apply Forall_replicate. left. reflexivity.
  - apply tickInvocations_schedule.
  - apply reverse_schedule.
  - vm_compute. discriminate.
Qed.

(** * Cell states stay 0 or 1 *)

Section Binary.

Variable grid : vec2f.
Variable cellStateIn : list Z.
Let W := U32.of_f32 (fx grid).
Let H := U32.of_f32 (fy grid).
Hypothesis W_pos : 0 < W.
Hypothesis H_pos : 0 < H.
Hypothesis In_size : W * H <= Z.of_nat (length cellStateIn).
Hypothesis In_binary : Forall binary cellStateIn.

Lemma specRule_binary n v : binary v → binary (specRule n v).
Proof.
intros Hv. unfold specRule, binary in *. repeat case_decide; auto.
Qed.

(** Each write is 0, 1 or a copy of an input cell. *)
Lemma written_binary cell i v :
written grid cellStateIn cell = Some (i, v) → binary v.
Proof.
destruct (written_Some grid cellStateIn W_pos H_pos In_size cell)
  as (n & u & _ & Hu & Hw).
rewrite Hw. intros [= _ <-]. apply specRule_binary.
apply (Forall_lookup_1 _ _ _ _ In_binary Hu).
Qed.

Lemma runInvocations_binary sched : ∀ cellStateOut,
W * H <= Z.of_nat (length cellStateOut) →
∃ out, runInvocations grid cellStateIn sched cellStateOut = Some out
       ∧ length out = length cellStateOut
       ∧ ∀ (j : nat) v, out !! j = Some v →
           binary v
           ∨ (cellStateOut !! j = Some v
              ∧ ∀ cell, cell ∈ sched →
                        Z.to_nat (cellIndex grid (xy cell)) ≠ j).
Proof.
induction sched as [ | cell rest IH]; intros cellStateOut Hout.
- exists cellStateOut. split; [reflexivity |]. split; [reflexivity |].
  intros j v Hv. right. split; [exact Hv |]. intros c Hc. inversion Hc.
- destruct (computeMain_insert grid cellStateIn W_pos H_pos In_size
              cellStateOut cell Hout) as (i & u & Hw & Hi & Hc).
  fold W H in Hi.
  cbn [runInvocations]. rewrite Hc. cbn [mbind option_bind].
  destruct (IH (<[Z.to_nat i := u]> cellStateOut)) as (out & Hr & Hl & Hj).
  { rewrite length_insert. exact Hout. }
  exists out. split; [exact Hr |]. rewrite Hl, length_insert.
  split; [reflexivity |]. intros j v Hv.
  destruct (Hj j v Hv) as [Hb | [Hsame Hothers]]; [left; exact Hb |].
  destruct (decide (Z.to_nat i = j)) as [<- | Hne].
  + left. rewrite list_lookup_insert_eq in Hsame by lia.
    injection Hsame as <-. apply (written_binary cell i u Hw).
  + right. rewrite list_lookup_insert_ne in Hsame by exact Hne.
    split; [exact Hsame |].
    intros c Hin. apply elem_of_cons in Hin as [-> | Hin]; [| auto].
    destruct (written_Some grid cellStateIn W_pos H_pos In_size cell)
      as (n & u' & _ & _ & Hw').
    rewrite Hw' in Hw. injection Hw as Hi' _. rewrite Hi'. exact Hne.
Qed.

End Binary.

(** C7. If every cell of the input buffer is 0 or 1, then after the compute
    pass of a tick, whatever the order of its invocations, every cell of
    the output buffer is 0 or 1: each write is 0, 1 or a copy of an input
    cell, and every cell is written. This holds whatever the output buffer
    held before when the side of the grid fits 16 bits, so that each cell
    has a [u32] index of its own, and on any grid when the output buffer
    held 0s and 1s before, as both buffers do from the setup on. *)
Theorem binary_invariant GRID_SIZE WORKGROUP_SIZE sched cellStateIn cellStateOut :
  0 < WORKGROUP_SIZE → 0 < GRID_SIZE →
  length cellStateIn = cellCount GRID_SIZE →
  length cellStateOut = cellCount GRID_SIZE →
  tickSchedule GRID_SIZE WORKGROUP_SIZE sched →
  Forall binary cellStateIn →
  GRID_SIZE <= 65536 ∨ Forall binary cellStateOut →
  ∃ out,
    runInvocations (gridOf GRID_SIZE) cellStateIn sched cellStateOut = Some out
    ∧ length out = cellCount GRID_SIZE
    ∧ Forall binary out.
Proof.
  intros Hwg Hg Hin Hout Hsched Hbin Hcase.
  destruct (grid_dims GRID_SIZE Hg) as (HW & HH & Hsize & _).
  destruct (runInvocations_binary (gridOf GRID_SIZE) cellStateIn HW HH
              ltac:(lia) Hbin sched cellStateOut ltac:(lia))
    as (out & Hr & Hl & Hj).
  exists out. split; [exact Hr |]. split; [congruence |].
  apply Forall_lookup_2. intros j v Hv.
  destruct (Hj j v Hv) as [Hb | [Hold Hnone]]; [exact Hb |].
  destruct Hcase as [Hfits | Hbout];
    [exfalso | exact (Forall_lookup_1 _ _ _ _ Hbout Hold)].
  assert (U32.of_f32 (fx (gridOf GRID_SIZE)) = GRID_SIZE) as EW.
  { unfold gridOf. cbn [fx]. rewrite grid_side by lia. unfold U32.modulus. lia. }
  assert (U32.of_f32 (fy (gridOf GRID_SIZE)) = GRID_SIZE) as EH.
  { unfold gridOf. cbn [fy]. rewrite grid_side by lia. unfold U32.modulus. lia. }
  assert (Z.of_nat j < GRID_SIZE * GRID_SIZE) as Hlt.
  { apply lookup_lt_Some in Hv. unfold cellCount in Hout. lia. }
  apply (Hnone (owner (gridOf GRID_SIZE) j)).
  - unfold tickSchedule, schedule in Hsched. rewrite Hsched.
    apply elem_of_invocationIds. unfold owner. cbn [xy x y z]. rewrite EW.
    pose proof (ceilDiv_cover GRID_SIZE WORKGROUP_SIZE Hwg).
    pose proof (Z.mod_pos_bound (Z.of_nat j) GRID_SIZE ltac:(lia)).
    assert (0 <= Z.of_nat j / GRID_SIZE < GRID_SIZE).
    { split; [apply Z.div_pos; lia |]. apply Z.div_lt_upper_bound; lia. }
    lia.
  - rewrite (cellIndex_owner (gridOf GRID_SIZE) HW HH); rewrite ?EW, ?EH;
      unfold U32.modulus; nia.
Qed.

Lemma binary_invariant_witness :
  ∃ out,
    runInvocations (gridOf 4) (blinkerRow 1 1) (tickInvocations 4 8)
      [7; 7; 7; 7; 7; 7; 7; 7; 7; 7; 7; 7; 7; 7; 7; 7] = Some out
    ∧ length out = cellCount 4
    ∧ Forall binary out.
Proof.
  apply (binary_invariant 4 8).
  - reflexivity.
  - reflexivity.
  - reflexivity.
  - reflexivity.
  - apply tickInvocations_schedule.
  - apply Forall_forall. intros v Hv. unfold binary.
    vm_compute in Hv.
    repeat (apply elem_of_cons in Hv as [-> | Hv]; [lia |]).
    inversion Hv.
  - left. discriminate.
Defined.

(** From the setup on, in every order of the invocations, both buffers hold
    0s and 1s after every tick. *)
Lemma tick_binary GRID_SIZE WORKGROUP_SIZE sched step a b :
  0 < GRID_SIZE → 0 <= step →
  length a = cellCount GRID_SIZE → length b = cellCount GRID_SIZE →
  Forall binary a → Forall binary b →
  ∃ a' b' frames,
    tick GRID_SIZE WORKGROUP_SIZE sched (step, deviceOf GRID_SIZE a b)
    = Some ((step + 1, deviceOf GRID_SIZE a' b'), frames)
    ∧ length a' = cellCount GRID_SIZE ∧ length b' = cellCount GRID_SIZE
    ∧ Forall binary a' ∧ Forall binary b'.
Proof.
  intros Hg Hstep Ha Hb Hba Hbb.
  destruct (grid_dims GRID_SIZE Hg) as (HW & HH & Hsize & _).
  destruct (tick_run GRID_SIZE WORKGROUP_SIZE Hg sched step a b Hstep Ha Hb)
    as (out & Hr & Hl & Ht).
  assert (Forall binary out) as Hbo.
  { apply Forall_lookup_2. intros j v Hv.
    destruct (Z.even step).
    - destruct (runInvocations_binary (gridOf GRID_SIZE) a HW HH
                  ltac:(lia) Hba sched b ltac:(lia)) as (out' & Hr' & _ & Hj).
      rewrite Hr in Hr'. injection Hr' as <-.
      destruct (Hj j v Hv) as [Hbin | [Hold _]]; [exact Hbin |].
      exact (Forall_lookup_1 _ _ _ _ Hbb Hold).
    - destruct (runInvocations_binary (gridOf GRID_SIZE) b HW HH
                  ltac:(lia) Hbb sched a ltac:(lia)) as (out' & Hr' & _ & Hj).
      rewrite Hr in Hr'. injection Hr' as <-.
      destruct (Hj j v Hv) as [Hbin | [Hold _]]; [exact Hbin |].
      exact (Forall_lookup_1 _ _ _ _ Hba Hold). }
  rewrite Ht. destruct (Z.even step); eexists _, _, _; repeat split;
    assumption.
Qed.

Lemma ticks_binary GRID_SIZE WORKGROUP_SIZE scheds : ∀ step a b,
  0 < GRID_SIZE → 0 <= step →
  length a = cellCount GRID_SIZE → length b = cellCount GRID_SIZE →
  Forall binary a → Forall binary b →
  ∃ step' a' b',
    ticks GRID_SIZE WORKGROUP_SIZE scheds (step, deviceOf GRID_SIZE a b)
    = Some (step', deviceOf GRID_SIZE a' b')
    ∧ Forall binary a' ∧ Forall binary b'.
Proof.
  induction scheds as [ | sched rest IH]; intros step a b Hg Hs Ha Hb Hba Hbb.
  - exists step, a, b. auto.
  - destruct (tick_binary GRID_SIZE WORKGROUP_SIZE sched step a b
                Hg Hs Ha Hb Hba Hbb)
      as (a1 & b1 & frames & Ht & Ha1 & Hb1 & Hba1 & Hbb1).
    cbn [ticks]. rewrite Ht. cbn [mbind option_bind].
    apply IH; try assumption. lia.
Qed.

Lemma cellStateArray_binary GRID_SIZE random :
  Forall binary (cellStateArray GRID_SIZE random).
Proof.
  unfold cellStateArray. apply Forall_fmap, Forall_forall. intros i _.
  cbn. unfold binary. destruct (Qlt_le_dec threshold (random i)); auto.
Qed.

Lemma simulation_binary GRID_SIZE WORKGROUP_SIZE random scheds :
  0 < GRID_SIZE →
  ∃ step a b,
    initMachine GRID_SIZE random ≫= ticks GRID_SIZE WORKGROUP_SIZE scheds
    = Some (step, deviceOf GRID_SIZE a b)
    ∧ Forall binary a ∧ Forall binary b.
Proof.
  intros Hg. rewrite initMachine_eq. cbn [mbind option_bind].
  apply ticks_binary; try assumption; try lia.
  - apply length_cellStateArray.
  - apply length_replicate.
  - apply cellStateArray_binary.
  - apply Forall_replicate. left. reflexivity.
Qed.

(** * The blinker on the 4x4 torus *)

Lemma functionalSize_4_8 : functionalSize 4 8.
Proof. unfold functionalSize. vm_compute. intuition congruence. Qed.

Lemma blinker_generation r c :
  0 <= r < 4 → 0 <= c < 4 →
  generation 4 (blinkerRow r c) = blinkerColumn r c
  ∧ generation 4 (blinkerColumn r c) = blinkerRow r c.
Proof.
  intros Hr Hc.
  assert (r = 0 ∨ r = 1 ∨ r = 2 ∨ r = 3) as Hr' by lia.
  assert (c = 0 ∨ c = 1 ∨ c = 2 ∨ c = 3) as Hc' by lia.
  destruct Hr' as [-> | [-> | [-> | ->]]];
    destruct Hc' as [-> | [-> | [-> | ->]]];
    split; vm_compute; reflexivity.
Qed.

(** C8. On the 4x4 grid, from a blinker in buffer A (three live cells along
    a row, or along a column, anywhere on the torus), the first tick writes
    the blinker turned by 90 degrees into buffer B and the second tick
    writes the initial blinker back into buffer A, in whatever order the
    invocations of the two compute passes run. *)
Theorem blinker_period2 r c sched1 sched2 b :
  0 <= r < 4 → 0 <= c < 4 →
  tickSchedule 4 8 sched1 → tickSchedule 4 8 sched2 →
  length b = 16%nat →
  ticks 4 8 [sched1] (0, deviceOf 4 (blinkerRow r c) b)
  = Some (1, deviceOf 4 (blinkerRow r c) (blinkerColumn r c))
  ∧ ticks 4 8 [sched1; sched2] (0, deviceOf 4 (blinkerRow r c) b)
    = Some (2, deviceOf 4 (blinkerRow r c) (blinkerColumn r c))
  ∧ ticks 4 8 [sched1] (0, deviceOf 4 (blinkerColumn r c) b)
    = Some (1, deviceOf 4 (blinkerColumn r c) (blinkerRow r c))
  ∧ ticks 4 8 [sched1; sched2] (0, deviceOf 4 (blinkerColumn r c) b)
    = Some (2, deviceOf 4 (blinkerColumn r c) (blinkerRow r c)).
Proof.
  intros Hr Hc Hs1 Hs2 Hb.
  destruct (blinker_generation r c Hr Hc) as [Hrow Hcol].
  assert (length (blinkerRow r c) = cellCount 4) as Hlr.
  { unfold blinkerRow. rewrite length_fmap, length_seqZ. reflexivity. }
  assert (length (blinkerColumn r c) = cellCount 4) as Hlc.
  { unfold blinkerColumn. rewrite length_fmap, length_seqZ. reflexivity. }
  assert (Forall (tickSchedule 4 8) [sched1]) as F1.
  { constructor; [exact Hs1 | constructor]. }
  assert (Forall (tickSchedule 4 8) [sched1; sched2]) as F2.
  { constructor; [exact Hs1 |]. constructor; [exact Hs2 | constructor]. }
  repeat split;
    rewrite (ticks_generations 4 8 functionalSize_4_8)
      by (assumption || lia);
    cbn [length generations Z.even Z.add Pos.add];
    rewrite ?Hrow, ?Hcol; cbn [Z.even]; rewrite ?Hrow, ?Hcol; reflexivity.
Qed.

(** The blinker of row 1 and the blinker of column 1, cell by cell. *)
Lemma blinker_period2_witness :
  blinkerRow 1 1 = [0; 0; 0; 0; 1; 1; 1; 0; 0; 0; 0; 0; 0; 0; 0; 0]
  ∧ blinkerColumn 1 1 = [0; 1; 0; 0; 0; 1; 0; 0; 0; 1; 0; 0; 0; 0; 0; 0]
  ∧ ticks 4 8 [tickInvocations 4 8] (0, deviceOf 4 (blinkerRow 1 1) (replicate 16 0))
    = Some (1, deviceOf 4 (blinkerRow 1 1) (blinkerColumn 1 1))
  ∧ ticks 4 8 [tickInvocations 4 8; reverse (tickInvocations 4 8)]
      (0, deviceOf 4 (blinkerRow 1 1) (replicate 16 0))
    = Some (2, deviceOf 4 (blinkerRow 1 1) (blinkerColumn 1 1)).
Proof.
  split; [reflexivity |]. split; [reflexivity |].
  destruct (blinker_period2 1 1 (tickInvocations 4 8)
              (reverse (tickInvocations 4 8)) (replicate 16 0))
    as (H1 & H2 & _).
  - split; [discriminate | reflexivity].
  - split; [discriminate | reflexivity].
  - apply tickInvocations_schedule.
  - apply reverse_schedule.
  - reflexivity.
  - split; [exact H1 | exact H2].
Defined.

(** * What the output at a cell depends on *)

Lemma mapM_load_ext (cellStateIn cellStateIn' : list Z) (indices : list Z) :
  (∀ j, j ∈ indices → load cellStateIn j = load cellStateIn' j) →
  mapM (load cellStateIn) indices = mapM (load cellStateIn') indices.
Proof.
  induction indices as [ | j rest IH]; intros Hext; [reflexivity |].
  cbn [mapM]. rewrite (Hext j) by left.
  rewrite IH; [reflexivity |]. intros k Hk. apply Hext. right. exact Hk.
Qed.

(** An invocation reads the input buffer at the index of its cell and at
    the indices of its eight [neighborCells], and nowhere else. *)
Lemma written_local grid (cellStateIn cellStateIn' : list Z) cell :
  (∀ j, j ∈ cellIndex grid (xy cell) :: (cellIndex grid <$> neighborCells cell) →
        load cellStateIn j = load cellStateIn' j) →
  written grid cellStateIn cell = written grid cellStateIn' cell.
Proof.
  intros Hext. unfold written. rewrite !activeNeighbors_countAt. unfold countAt.
  rewrite (mapM_load_ext cellStateIn cellStateIn')
    by (intros j Hj; apply Hext; right; exact Hj).
  rewrite (Hext (cellIndex grid (xy cell))) by left. reflexivity.
Qed.

Lemma dividingSize_grid GRID_SIZE :
  dividingSize GRID_SIZE →
  let W := U32.of_f32 (fx (gridOf GRID_SIZE)) in
  let H := U32.of_f32 (fy (gridOf GRID_SIZE)) in
  W = GRID_SIZE ∧ H = GRID_SIZE ∧ 0 < W ∧ 0 < H ∧ W * H <= U32.modulus
  ∧ U32.modulus mod W = 0 ∧ U32.modulus mod H = 0.
Proof.
  intros [Hg Hdiv]. cbn zeta. unfold gridOf. cbn [fx fy].
  rewrite grid_side by lia.
  replace (Z.min GRID_SIZE (U32.modulus - 1)) with GRID_SIZE
    by (unfold U32.modulus; lia).
  repeat split; try lia; try assumption. unfold U32.modulus. nia.
Qed.

Lemma generation_local GRID_SIZE (cellStateIn cellStateIn' : list Z) (i : nat) :
  dividingSize GRID_SIZE → (i < cellCount GRID_SIZE)%nat →
  (∀ j, j ∈ Z.of_nat i :: torusNeighbors (gridOf GRID_SIZE)
                            (Z.of_nat i mod GRID_SIZE) (Z.of_nat i / GRID_SIZE) →
        load cellStateIn j = load cellStateIn' j) →
  generation GRID_SIZE cellStateIn !! i = generation GRID_SIZE cellStateIn' !! i.
Proof.
  intros Hsize Hi Hext.
  destruct (dividingSize_grid GRID_SIZE Hsize)
    as (EW & EH & HW & HH & Hfit & HdW & HdH).
  unfold generation, nextState.
  rewrite !list_lookup_fmap, EW, EH.
  rewrite lookup_seq_lt by exact Hi.
  cbn [fmap option_fmap option_map Nat.add].
  rewrite (written_local (gridOf GRID_SIZE) cellStateIn cellStateIn');
    [reflexivity |].
  rewrite (cellIndex_owner (gridOf GRID_SIZE) HW HH Hfit)
    by (rewrite EW, EH; unfold cellCount in Hi; lia).
  rewrite (neighborCells_torusNeighbors (gridOf GRID_SIZE) _ HW HH Hfit HdW HdH).
  unfold owner. cbn [xy x y]. rewrite EW. exact Hext.
Qed.

(** C10, as amended. When the side of the grid divides 2^32 and fits 16
    bits: what an invocation writes, and where, is the same whatever the
    output buffer holds; the output at cell [i] of a compute pass is the
    same for two input buffers that agree at [i] and at its eight
    neighbours on the torus; and the output buffer of a compute pass is
    the same for every order of its invocations. *)
Theorem kernel_local GRID_SIZE WORKGROUP_SIZE cellStateIn :
  dividingSize GRID_SIZE → 0 < WORKGROUP_SIZE →
  length cellStateIn = cellCount GRID_SIZE →
  (∀ cell, ∃ i v, ∀ cellStateOut,
     length cellStateOut = cellCount GRID_SIZE →
     computeMain (gridOf GRID_SIZE) cellStateIn cellStateOut cell
     = Some (<[i := v]> cellStateOut))
  ∧ (∀ cellStateIn' (i : nat) sched sched' cellStateOut cellStateOut',
       length cellStateIn' = cellCount GRID_SIZE →
       (i < cellCount GRID_SIZE)%nat →
       (∀ j, j ∈ Z.of_nat i :: torusNeighbors (gridOf GRID_SIZE)
                                 (Z.of_nat i mod GRID_SIZE)
                                 (Z.of_nat i / GRID_SIZE) →
             load cellStateIn j = load cellStateIn' j) →
       tickSchedule GRID_SIZE WORKGROUP_SIZE sched →
       tickSchedule GRID_SIZE WORKGROUP_SIZE sched' →
       length cellStateOut = cellCount GRID_SIZE →
       length cellStateOut' = cellCount GRID_SIZE →
       ∃ out out',
         runInvocations (gridOf GRID_SIZE) cellStateIn sched cellStateOut
         = Some out
         ∧ runInvocations (gridOf GRID_SIZE) cellStateIn' sched' cellStateOut'
           = Some out'
         ∧ out !! i = out' !! i)
  ∧ (∀ sched sched' cellStateOut cellStateOut',
       tickSchedule GRID_SIZE WORKGROUP_SIZE sched →
       tickSchedule GRID_SIZE WORKGROUP_SIZE sched' →
       length cellStateOut = cellCount GRID_SIZE →
       length cellStateOut' = cellCount GRID_SIZE →
       ∃ out,
         runInvocations (gridOf GRID_SIZE) cellStateIn sched cellStateOut
         = Some out
         ∧ runInvocations (gridOf GRID_SIZE) cellStateIn sched' cellStateOut'
           = Some out).
Proof.
  intros Hsize Hwg Hin.
  destruct (dividingSize_grid GRID_SIZE Hsize)
    as (EW & EH & HW & HH & Hfit & HdW & HdH).
  assert (functionalSize GRID_SIZE WORKGROUP_SIZE) as Hfun.
  { destruct Hsize as [Hg Hdiv]. unfold functionalSize. auto. }
  assert (∀ cin sched cout,
            length cin = cellCount GRID_SIZE →
            tickSchedule GRID_SIZE WORKGROUP_SIZE sched →
            length cout = cellCount GRID_SIZE →
            runInvocations (gridOf GRID_SIZE) cin sched cout
            = Some (generation GRID_SIZE cin)) as Hrun.
  { intros cin sched cout Hcin Hsched Hcout.
    apply (dispatch_generation GRID_SIZE WORKGROUP_SIZE Hfun);
      try assumption.
    intros cell. unfold tickSchedule, schedule in Hsched. rewrite Hsched.
    reflexivity. }
  split; [| split].
  - intros cell.
    assert (U32.of_f32 (fx (gridOf GRID_SIZE)) * U32.of_f32 (fy (gridOf GRID_SIZE))
            <= Z.of_nat (length cellStateIn)) as Hsz.
    { rewrite EW, EH. unfold cellCount in Hin. lia. }
    destruct (written_Some (gridOf GRID_SIZE) cellStateIn HW HH Hsz cell)
      as (n & v & _ & _ & Hw).
    pose proof (cellIndex_range (gridOf GRID_SIZE) HW HH (xy cell)) as Hi.
    exists (Z.to_nat (cellIndex (gridOf GRID_SIZE) (xy cell))), (specRule n v).
    intros cout Hcout.
    rewrite (computeMain_written (gridOf GRID_SIZE) cellStateIn HW HH Hsz
               cout cell _ _ Hw).
    apply store_Some. rewrite EW, EH in Hi. unfold cellCount in Hcout. lia.
  - intros cin' i sched sched' cout cout' Hcin' Hi Hext Hs Hs' Hcout Hcout'.
    exists (generation GRID_SIZE cellStateIn), (generation GRID_SIZE cin').
    split; [apply Hrun; assumption |]. split; [apply Hrun; assumption |].
    apply generation_local; assumption.
  - intros sched sched' cout cout' Hs Hs' Hcout Hcout'.
    exists (generation GRID_SIZE cellStateIn).
    split; apply Hrun; assumption.
Qed.

Lemma dividingSize_4 : dividingSize 4.
Proof. unfold dividingSize. vm_compute. intuition congruence. Qed.

Lemma kernel_local_witness :
  ∃ out,
    runInvocations (gridOf 4) (blinkerRow 1 1) (tickInvocations 4 8)
      (replicate 16 0) = Some out
    ∧ runInvocations (gridOf 4) (blinkerRow 1 1) (reverse (tickInvocations 4 8))
        (replicate 16 7) = Some out.
Proof.
  destruct (kernel_local 4 8 (blinkerRow 1 1)) as (_ & _ & Horder).
  - exact dividingSize_4.
  - reflexivity.
  - reflexivity.
  - apply Horder.
    + apply tickInvocations_schedule.
    + apply reverse_schedule.
    + reflexivity.
    + reflexivity.
Defined.

(** On the 6x6 grid [0 - 1] wraps to 2^32 - 1, which is 3 modulo 6: the
    invocation of cell (0,0) looks to its left in column 3 and above in
    row 3. Cell 3 is not in the neighbourhood of cell 0 on the torus, yet
    the output at cell 0 changes with it. With workgroups of 2x2 the
    dispatch covers the grid exactly, and this is so in every order. *)
Lemma kernel_not_local_6x6 :
  let cellStateIn := <[1%nat := 1]> (<[7%nat := 1]> (replicate 36 0)) in
  let cellStateIn' := <[3%nat := 1]> cellStateIn in
  (∀ j, j ∈ 0 :: torusNeighbors (gridOf 6) 0 0 →
        load cellStateIn j = load cellStateIn' j)
  ∧ written (gridOf 6) cellStateIn (Vec3u (vec2 0 0) 0) = Some (0, 0)
  ∧ written (gridOf 6) cellStateIn' (Vec3u (vec2 0 0) 0) = Some (0, 1)
  ∧ ∀ sched sched' cellStateOut cellStateOut',
      tickSchedule 6 2 sched → tickSchedule 6 2 sched' →
      length cellStateOut = cellCount 6 → length cellStateOut' = cellCount 6 →
      ∃ out out',
        runInvocations (gridOf 6) cellStateIn sched cellStateOut = Some out
        ∧ runInvocations (gridOf 6) cellStateIn' sched' cellStateOut' = Some out'
        ∧ out !! 0%nat = Some 0 ∧ out' !! 0%nat = Some 1.
Proof.
  cbn zeta. split; [| split; [| split]].
  - intros j Hj. vm_compute in Hj.
    repeat (apply elem_of_cons in Hj as [-> | Hj]; [reflexivity |]).
    inversion Hj.
  - vm_compute. reflexivity.
  - vm_compute. reflexivity.
  - intros sched sched' cout cout' Hs Hs' Hcout Hcout'.
    assert (functionalSize 6 2) as Hfun.
    { unfold functionalSize. vm_compute. intuition congruence. }
    eexists _, _.
    split; [| split].
    + apply (dispatch_generation 6 2 Hfun); [| reflexivity | exact Hcout].
      intros cell. unfold tickSchedule, schedule in Hs. rewrite Hs. reflexivity.
    + apply (dispatch_generation 6 2 Hfun); [| reflexivity | exact Hcout'].
      intros cell. unfold tickSchedule, schedule in Hs'. rewrite Hs'. reflexivity.
    + split; vm_compute; reflexivity.
Qed.

(** * Instances *)

Lemma computeMain_rule_witness :
  ∃ aliveNeighbors input out,
    activeNeighbors (gridOf 4) (blinkerRow 1 1) (Vec3u (vec2 1 0) 0)
    = Some aliveNeighbors
    ∧ load (blinkerRow 1 1) 1 = Some input
    ∧ computeMain (gridOf 4) (blinkerRow 1 1) (replicate 16 0)
        (Vec3u (vec2 1 0) 0) = Some out
    ∧ (aliveNeighbors = 2 → load out 1 = Some input)
    ∧ (aliveNeighbors = 3 → load out 1 = Some 1)
    ∧ (aliveNeighbors ≠ 2 → aliveNeighbors ≠ 3 → load out 1 = Some 0)
    ∧ ∀ j : nat, j ≠ 1%nat → out !! j = replicate 16 0 !! j.
Proof.
  destruct (computeMain_rule (gridOf 4) (blinkerRow 1 1) (replicate 16 0)
              (Vec3u (vec2 1 0) 0))
    as (n & v & out & Hn & Hv & Hc & H2 & H3 & H0 & Hj & _);
    [vm_compute; congruence .. |].
  exists n, v, out. auto 10.
Defined.

Lemma accesses_in_bounds_witness :
  (∀ cell : vec2u, 0 <= cellIndex (gridOf 4) cell < 16)
  ∧ (∀ a b, is_Some (cellActive (gridOf 4) (blinkerRow 1 1) a b))
  ∧ (∀ cell,
       ∃ out, computeMain (gridOf 4) (blinkerRow 1 1) (replicate 16 0) cell
              = Some out
              ∧ length out = 16%nat
              ∧ ∀ j : nat, 16 <= Z.of_nat j → out !! j = replicate 16 0 !! j)
  ∧ (∀ sched,
       ∃ out, runInvocations (gridOf 4) (blinkerRow 1 1) sched (replicate 16 0)
              = Some out
              ∧ length out = 16%nat
              ∧ ∀ j : nat, 16 <= Z.of_nat j → out !! j = replicate 16 0 !! j).
Proof.
  apply (accesses_in_bounds (gridOf 4) (blinkerRow 1 1) (replicate 16 0));
    vm_compute; congruence.
Defined.

(** * Further properties of the dispatch *)

Lemma ceilDiv_tight a b : 0 < b → ceilDiv a b * b < a + b.
Proof.
  intros Hb. unfold ceilDiv.
  pose proof (Z.div_mod (- a) b ltac:(lia)).
  pose proof (Z.mod_pos_bound (- a) b Hb). nia.
Qed.

Lemma length_bind_const {A B} (f : A → list B) (k : nat) (l : list A) :
  (∀ a, length (f a) = k) → length (l ≫= f) = (length l * k)%nat.
Proof.
  intros Hf. induction l as [ | a l IH]; [reflexivity |].
  rewrite bind_cons, length_app, Hf, IH. cbn [length]. lia.
Qed.

Lemma NoDup_invocationIds size countX countY :
  NoDup (invocationIds size countX countY).
Proof.
  unfold invocationIds. apply NoDup_bind; [| | apply NoDup_seqZ].
  - intros cy1 cy2 cell _ _ H1 H2.
    apply list_elem_of_bind in H1 as (cx1 & H1 & _).
    apply list_elem_of_bind in H2 as (cx2 & H2 & _).
    apply list_elem_of_singleton in H1, H2. congruence.
  - intros cy _. apply NoDup_bind; [| | apply NoDup_seqZ].
    + intros cx1 cx2 cell _ _ H1 H2.
      apply list_elem_of_singleton in H1, H2. congruence.
    + intros cx _. apply NoDup_singleton.
Qed.

Lemma length_invocationIds size countX countY :
  Z.of_nat (length (invocationIds size countX countY))
  = Z.max 0 (countY * size) * Z.max 0 (countX * size).
Proof.
  unfold invocationIds.
  rewrite (length_bind_const _ (Z.to_nat (countX * size))).
  - rewrite length_seqZ. lia.
  - intros cy. rewrite (length_bind_const _ 1%nat) by reflexivity.
    rewrite length_seqZ. lia.
Qed.

(** X1. The compute pass of a tick has an invocation for every cell of the
    grid; it starts less than one workgroup of ids beyond the grid on each
    axis, no id twice, and [(workgroupCount * WORKGROUP_SIZE)^2] ids in
    all. *)
Theorem dispatch_covers GRID_SIZE WORKGROUP_SIZE :
  0 < WORKGROUP_SIZE → 0 < GRID_SIZE →
  (∀ a b, 0 <= a < GRID_SIZE → 0 <= b < GRID_SIZE →
          Vec3u (vec2 a b) 0 ∈ tickInvocations GRID_SIZE WORKGROUP_SIZE)
  ∧ (∀ cell, cell ∈ tickInvocations GRID_SIZE WORKGROUP_SIZE →
       0 <= x (xy cell) < GRID_SIZE + WORKGROUP_SIZE
       ∧ 0 <= y (xy cell) < GRID_SIZE + WORKGROUP_SIZE
       ∧ z cell = 0)
  ∧ NoDup (tickInvocations GRID_SIZE WORKGROUP_SIZE)
  ∧ Z.of_nat (length (tickInvocations GRID_SIZE WORKGROUP_SIZE))
    = (ceilDiv GRID_SIZE WORKGROUP_SIZE * WORKGROUP_SIZE)
      * (ceilDiv GRID_SIZE WORKGROUP_SIZE * WORKGROUP_SIZE).
Proof.
  intros Hwg Hg.
  pose proof (ceilDiv_cover GRID_SIZE WORKGROUP_SIZE Hwg) as Hlo.
  pose proof (ceilDiv_tight GRID_SIZE WORKGROUP_SIZE Hwg) as Hhi.
  unfold tickInvocations. split; [| split; [| split]].
  - intros a b Ha Hb. apply elem_of_invocationIds. cbn [xy x y z]. lia.
  - intros cell Hcell. apply elem_of_invocationIds in Hcell. lia.
  - apply NoDup_invocationIds.
  - rewrite length_invocationIds. lia.
Qed.

Lemma dispatch_covers_witness :
  (∀ a b, 0 <= a < 32 → 0 <= b < 32 →
          Vec3u (vec2 a b) 0 ∈ tickInvocations 32 8)
  ∧ (∀ cell, cell ∈ tickInvocations 32 8 →
       0 <= x (xy cell) < 32 + 8 ∧ 0 <= y (xy cell) < 32 + 8 ∧ z cell = 0)
  ∧ NoDup (tickInvocations 32 8)
  ∧ Z.of_nat (length (tickInvocations 32 8))
    = (ceilDiv 32 8 * 8) * (ceilDiv 32 8 * 8).
Proof. apply (dispatch_covers 32 8); reflexivity. Defined.

(** X2. When the workgroup size divides the side of the grid, as 8 divides
    32, the ids of the compute pass are exactly the cells of the grid, one
    invocation for each; on a side of at most 65536 two of them never write
    the same index, so that every cell is written exactly once a tick. *)
Theorem dispatch_exact GRID_SIZE WORKGROUP_SIZE :
  0 < WORKGROUP_SIZE → 0 < GRID_SIZE → GRID_SIZE mod WORKGROUP_SIZE = 0 →
  (∀ cell, cell ∈ tickInvocations GRID_SIZE WORKGROUP_SIZE
           ↔ 0 <= x (xy cell) < GRID_SIZE ∧ 0 <= y (xy cell) < GRID_SIZE
             ∧ z cell = 0)
  ∧ NoDup (tickInvocations GRID_SIZE WORKGROUP_SIZE)
  ∧ length (tickInvocations GRID_SIZE WORKGROUP_SIZE) = cellCount GRID_SIZE
  ∧ (GRID_SIZE <= 65536 →
     ∀ cell cell',
       cell ∈ tickInvocations GRID_SIZE WORKGROUP_SIZE →
       cell' ∈ tickInvocations GRID_SIZE WORKGROUP_SIZE →
       cellIndex (gridOf GRID_SIZE) (xy cell)
       = cellIndex (gridOf GRID_SIZE) (xy cell') →
       cell = cell').
Proof.
  intros Hwg Hg Hdiv.
  pose proof (ceilDiv_exact GRID_SIZE WORKGROUP_SIZE Hwg Hdiv) as Hex.
  assert (∀ cell, cell ∈ tickInvocations GRID_SIZE WORKGROUP_SIZE
           ↔ 0 <= x (xy cell) < GRID_SIZE ∧ 0 <= y (xy cell) < GRID_SIZE
             ∧ z cell = 0) as Hmem.
  { intros cell. unfold tickInvocations. rewrite elem_of_invocationIds, Hex.
    reflexivity. }
  split; [exact Hmem |]. split; [apply NoDup_invocationIds |]. split.
  - apply Nat2Z.inj. unfold tickInvocations.
    rewrite length_invocationIds, Hex. unfold cellCount. nia.
  - intros Hfit cell cell' Hc Hc' Hidx.
    apply Hmem in Hc as (Hx & Hy & Hz). apply Hmem in Hc' as (Hx' & Hy' & Hz').
    destruct (grid_dims GRID_SIZE Hg) as (HW & HH & _ & _).
    assert (U32.of_f32 (fx (gridOf GRID_SIZE)) = GRID_SIZE) as EW.
    { unfold gridOf. cbn [fx]. rewrite grid_side by lia. unfold U32.modulus. lia. }
    assert (U32.of_f32 (fy (gridOf GRID_SIZE)) = GRID_SIZE) as EH.
    { unfold gridOf. cbn [fy]. rewrite grid_side by lia. unfold U32.modulus. lia. }
    rewrite !(cellIndex_torusIndex (gridOf GRID_SIZE) HW HH) in Hidx
      by (rewrite EW, EH; unfold U32.modulus; nia).
    unfold torusIndex in Hidx. rewrite EW, EH in Hidx.
    rewrite !Z.mod_small in Hidx by lia.
    destruct cell as [[a b] c], cell' as [[a' b'] c']. cbn [xy x y z] in *.
    assert (b = b') by nia. assert (a = a') by nia. congruence.
Qed.

Lemma dispatch_exact_witness :
  (∀ cell, cell ∈ tickInvocations 32 8
           ↔ 0 <= x (xy cell) < 32 ∧ 0 <= y (xy cell) < 32 ∧ z cell = 0)
  ∧ NoDup (tickInvocations 32 8)
  ∧ length (tickInvocations 32 8) = cellCount 32
  ∧ (32 <= 65536 →
     ∀ cell cell',
       cell ∈ tickInvocations 32 8 → cell' ∈ tickInvocations 32 8 →
       cellIndex (gridOf 32) (xy cell) = cellIndex (gridOf 32) (xy cell') →
       cell = cell').
Proof. apply (dispatch_exact 32 8); reflexivity. Defined.

(** * Counting live neighbours *)

Lemma mapM_load_binary (cellStateIn : list Z) (indices : list Z) :
  Forall binary cellStateIn →
  (∀ j, j ∈ indices → 0 <= j < Z.of_nat (length cellStateIn)) →
  ∃ vs, mapM (load cellStateIn) indices = Some vs
        ∧ Forall binary vs ∧ length vs = length indices
        ∧ foldr Z.add 0 vs = liveAt cellStateIn indices.
Proof.
  intros Hbin. unfold liveAt.
  induction indices as [ | j rest IH]; intros Hrange.
  - exists []. repeat split; constructor.
  - destruct IH as (vs & Hvs & Hb & Hl & Hsum).
    { intros k Hk. apply Hrange. right. exact Hk. }
    destruct (load_Some cellStateIn j) as [v Hv]; [apply Hrange; left |].
    assert (binary v) as Hbv by exact (Forall_lookup_1 _ _ _ _ Hbin Hv).
    exists (v :: vs). cbn [mapM]. rewrite Hv, Hvs.
    cbn [mbind option_bind mret option_ret].
    split; [reflexivity |]. split; [constructor; assumption |].
    split; [cbn [length]; congruence |].
    cbn [foldr]. rewrite filter_cons, Hsum. rewrite Hv.
    destruct Hbv as [-> | ->].
    + rewrite decide_False by discriminate. lia.
    + rewrite decide_True by reflexivity. cbn [length]. lia.
Qed.

Lemma sumNeighbors_binary vs :
  Forall binary vs → length vs = 8%nat →
  sumNeighbors vs = Some (foldr Z.add 0 vs).
Proof.
  intros Hb Hl.
  do 8 (destruct vs as [ | ? vs]; [discriminate |]).
  destruct vs; [| discriminate].
  repeat match goal with
  | H : Forall binary (_ :: _) |- _ => apply Forall_cons in H as [[-> | ->] H]
  end; reflexivity.
Qed.

Lemma liveAt_range cellStateIn indices :
  0 <= liveAt cellStateIn indices <= Z.of_nat (length indices).
Proof.
  unfold liveAt. split; [lia |]. apply inj_le, length_filter.
Qed.

Lemma countAt_binary cellStateIn indices :
  Forall binary cellStateIn → length indices = 8%nat →
  (∀ j, j ∈ indices → 0 <= j < Z.of_nat (length cellStateIn)) →
  countAt cellStateIn indices = Some (liveAt cellStateIn indices).
Proof.
  intros Hbin Hl Hrange.
  destruct (mapM_load_binary cellStateIn indices Hbin Hrange)
    as (vs & Hvs & Hb & Hlv & Hsum).
  unfold countAt. rewrite Hvs. cbn [mbind option_bind].
  rewrite sumNeighbors_binary by (assumption || congruence).
  rewrite Hsum. reflexivity.
Qed.

(** X3. On an input buffer of 0s and 1s the count of an invocation is the
    number of its eight neighbour lookups that find a live cell, a number
    from 0 to 8: the [u32] additions never wrap. *)
Theorem activeNeighbors_counts grid cellStateIn cell :
  let W := U32.of_f32 (fx grid) in
  let H := U32.of_f32 (fy grid) in
  0 < W → 0 < H →
  W * H <= Z.of_nat (length cellStateIn) →
  Forall binary cellStateIn →
  ∃ n,
    activeNeighbors grid cellStateIn cell = Some n
    ∧ n = liveAt cellStateIn (cellIndex grid <$> neighborCells cell)
    ∧ 0 <= n <= 8.
Proof.
  intros W H HW HH Hsize Hbin.
  exists (liveAt cellStateIn (cellIndex grid <$> neighborCells cell)).
  split; [| split; [reflexivity |]].
  - rewrite activeNeighbors_countAt. apply countAt_binary;
      [exact Hbin | reflexivity |].
    intros j Hj. apply list_elem_of_fmap in Hj as (c & -> & _).
    pose proof (cellIndex_range grid HW HH c) as Hr. fold W H in Hr. lia.
  - pose proof (liveAt_range cellStateIn (cellIndex grid <$> neighborCells cell))
      as Hr.
    rewrite length_fmap in Hr. exact Hr.
Qed.

Lemma activeNeighbors_counts_witness :
  ∃ n,
    activeNeighbors (gridOf 4) (blinkerRow 1 1) (Vec3u (vec2 1 0) 0) = Some n
    ∧ n = liveAt (blinkerRow 1 1)
            (cellIndex (gridOf 4) <$> neighborCells (Vec3u (vec2 1 0) 0))
    ∧ 0 <= n <= 8.
Proof.
  apply (activeNeighbors_counts (gridOf 4) (blinkerRow 1 1)).
  - reflexivity.
  - reflexivity.
  - vm_compute. discriminate.
  - apply Forall_forall. intros v Hv. unfold binary.
    vm_compute in Hv.
    repeat (apply elem_of_cons in Hv as [-> | Hv]; [lia |]).
    inversion Hv.
Defined.

(** * The whole grid after a compute pass *)

(** On a side that divides 2^32, the next generation at the cell in column
    [a] and row [b] of the torus, for all integers [a] and [b]. *)
Lemma generation_at GRID_SIZE cellStateIn a b :
  dividingSize GRID_SIZE → length cellStateIn = cellCount GRID_SIZE →
  load (generation GRID_SIZE cellStateIn) (torusIndex (gridOf GRID_SIZE) a b)
  = n ← countAt cellStateIn (torusNeighbors (gridOf GRID_SIZE) a b);
    v ← load cellStateIn (torusIndex (gridOf GRID_SIZE) a b);
    Some (specRule n v).
Proof.
  intros Hsize Hin.
  destruct (dividingSize_grid GRID_SIZE Hsize)
    as (EW & EH & HW & HH & Hfit & HdW & HdH).
  assert (U32.of_f32 (fx (gridOf GRID_SIZE)) * U32.of_f32 (fy (gridOf GRID_SIZE))
          <= Z.of_nat (length cellStateIn)) as Hsz.
  { rewrite EW, EH. unfold cellCount in Hin. lia. }
  set (cell := Vec3u (vec2 a b) 0).
  destruct (written_Some (gridOf GRID_SIZE) cellStateIn HW HH Hsz cell)
    as (n & v & Hn & Hv & Hw).
  pose proof (agrees_divisors (gridOf GRID_SIZE) cellStateIn HW HH Hfit cell
                HdW HdH) as Hag.
  pose proof (nextState_agrees (gridOf GRID_SIZE) cellStateIn HW HH Hsz cell
                _ _ Hag Hw) as Hnext.
  rewrite activeNeighbors_countAt in Hn.
  rewrite (neighborCells_torusNeighbors (gridOf GRID_SIZE) cell HW HH Hfit
             HdW HdH) in Hn.
  rewrite (cellIndex_torusIndex (gridOf GRID_SIZE) HW HH (xy cell) Hfit)
    in Hv, Hnext.
  cbn [cell xy x y] in Hn, Hv, Hnext.
  rewrite Hn, Hv. cbn [mbind option_bind]. exact Hnext.
Qed.

(** * The transition rule over a whole compute step *)

(** C1, as amended. On a side that divides 2^32 (and is at most 65536), one
    compute step, in whatever order its invocations run, writes for every
    cell, at the cell's row-major index, the value that the rule gives for
    the count of the cell's eight Moore neighbours on the torus in the
    input buffer: the cell's input value if the count is 2, 1 if it is 3
    and 0 otherwise. The count is the sum, in [u32] arithmetic, of the
    eight neighbours' input values, which is the number of live neighbours
    when the input buffer holds 0s and 1s. *)
Theorem compute_step_rule GRID_SIZE WORKGROUP_SIZE sched cellStateIn
    cellStateOut :
  dividingSize GRID_SIZE → 0 < WORKGROUP_SIZE →
  length cellStateIn = cellCount GRID_SIZE →
  length cellStateOut = cellCount GRID_SIZE →
  tickSchedule GRID_SIZE WORKGROUP_SIZE sched →
  ∃ out,
    runInvocations (gridOf GRID_SIZE) cellStateIn sched cellStateOut = Some out
    ∧ length out = cellCount GRID_SIZE
    ∧ ∀ a b, 0 <= a < GRID_SIZE → 0 <= b < GRID_SIZE →
        let i := b * GRID_SIZE + a in
        let at_ a' b' := (b' mod GRID_SIZE) * GRID_SIZE + a' mod GRID_SIZE in
        let moore :=
          [ at_ (a + 1) (b + 1); at_ (a + 1) b; at_ (a + 1) (b - 1);
            at_ a (b - 1); at_ (a - 1) (b - 1); at_ (a - 1) b;
            at_ (a - 1) (b + 1); at_ a (b + 1) ] in
        ∃ aliveNeighbors input,
          countAt cellStateIn moore = Some aliveNeighbors
          ∧ (Forall binary cellStateIn →
             aliveNeighbors = liveAt cellStateIn moore)
          ∧ load cellStateIn i = Some input
          ∧ (aliveNeighbors = 2 → load out i = Some input)
          ∧ (aliveNeighbors = 3 → load out i = Some 1)
          ∧ (aliveNeighbors ≠ 2 → aliveNeighbors ≠ 3 → load out i = Some 0).
Proof.
  intros Hsize Hwg Hin Hout Hsched.
  destruct (dividingSize_grid GRID_SIZE Hsize)
    as (EW & EH & HW & HH & Hfit & HdW & HdH).
  assert (functionalSize GRID_SIZE WORKGROUP_SIZE) as Hfun.
  { destruct Hsize as [Hg Hdiv]. unfold functionalSize. auto. }
  exists (generation GRID_SIZE cellStateIn). split.
  { apply (dispatch_generation GRID_SIZE WORKGROUP_SIZE Hfun); try assumption.
    intros cell. unfold tickSchedule, schedule in Hsched. rewrite Hsched.
    reflexivity. }
  split; [apply (length_generation GRID_SIZE WORKGROUP_SIZE Hfun) |].
  intros a b Ha Hb i at_ moore.
  assert (∀ a' b', torusIndex (gridOf GRID_SIZE) a' b' = at_ a' b') as Eat.
  { intros a' b'. unfold torusIndex. rewrite EW, EH. reflexivity. }
  assert (at_ a b = i) as Ei.
  { unfold at_, i. rewrite !Z.mod_small by lia. reflexivity. }
  assert (torusNeighbors (gridOf GRID_SIZE) a b = moore) as Em.
  { unfold torusNeighbors. rewrite !Eat. reflexivity. }
  pose proof (generation_at GRID_SIZE cellStateIn a b Hsize Hin) as Hgen.
  rewrite Em, Eat, Ei in Hgen.
  assert (∀ a' b', 0 <= at_ a' b' < Z.of_nat (length cellStateIn)) as Hrange.
  { intros a' b'. rewrite <- Eat.
    pose proof (torusIndex_range (gridOf GRID_SIZE) HW HH a' b') as Hr.
    rewrite EW, EH in Hr. unfold cellCount in Hin. lia. }
  assert (0 <= i < Z.of_nat (length cellStateIn)) as Hi
    by (rewrite <- Ei; apply Hrange).
  destruct (load_Some cellStateIn i Hi) as [input Hinput].
  destruct (load_Some (generation GRID_SIZE cellStateIn) i) as [v Hv].
  { rewrite (length_generation GRID_SIZE WORKGROUP_SIZE Hfun). congruence. }
  destruct (countAt cellStateIn moore) as [n | ] eqn:Hn;
    [| rewrite Hgen in Hv; discriminate].
  exists n, input. split; [reflexivity |]. split.
  { intros Hbin. rewrite countAt_binary in Hn; [congruence | exact Hbin | reflexivity |].
    intros j Hj. unfold moore in Hj.
    repeat (apply elem_of_cons in Hj as [-> | Hj]; [apply Hrange |]).
    inversion Hj. }
  split; [exact Hinput |].
  rewrite Hgen, Hinput. cbn [mbind option_bind]. unfold specRule.
  repeat split; intros; repeat case_decide; congruence.
Qed.

Lemma compute_step_rule_witness :
  ∃ out,
    runInvocations (gridOf 4) (blinkerRow 1 1) (tickInvocations 4 8)
      (replicate 16 0) = Some out
    ∧ length out = cellCount 4
    ∧ ∀ a b, 0 <= a < 4 → 0 <= b < 4 →
        let i := b * 4 + a in
        let at_ a' b' := (b' mod 4) * 4 + a' mod 4 in
        let moore :=
          [ at_ (a + 1) (b + 1); at_ (a + 1) b; at_ (a + 1) (b - 1);
            at_ a (b - 1); at_ (a - 1) (b - 1); at_ (a - 1) b;
            at_ (a - 1) (b + 1); at_ a (b + 1) ] in
        ∃ aliveNeighbors input,
          countAt (blinkerRow 1 1) moore = Some aliveNeighbors
          ∧ (Forall binary (blinkerRow 1 1) →
             aliveNeighbors = liveAt (blinkerRow 1 1) moore)
          ∧ load (blinkerRow 1 1) i = Some input
          ∧ (aliveNeighbors = 2 → load out i = Some input)
          ∧ (aliveNeighbors = 3 → load out i = Some 1)
          ∧ (aliveNeighbors ≠ 2 → aliveNeighbors ≠ 3 → load out i = Some 0).
Proof.
  apply (compute_step_rule 4 8).
  - exact dividingSize_4.
  - reflexivity.
  - reflexivity.
  - reflexivity.
  - apply tickInvocations_schedule.
Defined.

(** Where the side does not divide 2^32 the step does not follow the Moore
    count. On a 6x6 grid with cells 1, 3 and 7 alive, cell (0,0) is dead
    and has two live Moore neighbours on the torus, (1,0) and (1,1), so the
    rule leaves it dead. The kernel computes [x - 1] as 2^32 - 1, which is
    3 modulo 6, takes column 3 for the column to the left, counts cell
    (3,0) as a third neighbour and writes 1, in every order of the
    invocations of 2x2 workgroups. *)
Lemma compute_step_not_moore_6x6 :
  let cellStateIn :=
    <[3%nat := 1]> (<[1%nat := 1]> (<[7%nat := 1]> (replicate 36 0))) in
  let at_ a' b' := (b' mod 6) * 6 + a' mod 6 in
  let moore :=
    [ at_ 1 1; at_ 1 0; at_ 1 (-1); at_ 0 (-1); at_ (-1) (-1); at_ (-1) 0;
      at_ (-1) 1; at_ 0 1 ] in
  Forall binary cellStateIn
  ∧ moore = [7; 1; 31; 30; 35; 5; 11; 6]
  ∧ moore = torusNeighbors (gridOf 6) 0 0
  ∧ countAt cellStateIn moore = Some 2
  ∧ liveAt cellStateIn moore = 2
  ∧ load cellStateIn 0 = Some 0
  ∧ specRule 2 0 = 0
  ∧ activeNeighbors (gridOf 6) cellStateIn (Vec3u (vec2 0 0) 0) = Some 3
  ∧ ∀ sched cellStateOut,
      tickSchedule 6 2 sched → length cellStateOut = cellCount 6 →
      ∃ out,
        runInvocations (gridOf 6) cellStateIn sched cellStateOut = Some out
        ∧ load out 0 = Some 1.
Proof.
  cbn zeta.
  split.
  { vm_compute. repeat (apply Forall_cons_2; [unfold binary; lia |]).
    apply Forall_nil_2. }
  do 7 (split; [vm_compute; reflexivity |]).
  intros sched cout Hs Hcout.
  {
    assert (functionalSize 6 2) as Hfun.
    { unfold functionalSize. vm_compute. intuition congruence. }
    eexists. split.
    + apply (dispatch_generation 6 2 Hfun); [| reflexivity | exact Hcout].
      intros cell. unfold tickSchedule, schedule in Hs. rewrite Hs. reflexivity.
    + vm_compute. reflexivity. }
Qed.

(** X4. On a side that divides 2^32 and an input buffer of 0s and 1s, one
    compute pass, in any order, is a generation of Conway's Game of Life on
    the torus: the cell in column [a] and row [b] is alive afterwards
    exactly when three of its eight neighbours on the torus were alive, or
    two were and the cell itself was. *)
Theorem tick_conway GRID_SIZE WORKGROUP_SIZE sched cellStateIn cellStateOut :
  dividingSize GRID_SIZE → 0 < WORKGROUP_SIZE →
  length cellStateIn = cellCount GRID_SIZE →
  length cellStateOut = cellCount GRID_SIZE →
  tickSchedule GRID_SIZE WORKGROUP_SIZE sched →
  Forall binary cellStateIn →
  ∃ out,
    runInvocations (gridOf GRID_SIZE) cellStateIn sched cellStateOut = Some out
    ∧ ∀ a b,
        let live := liveAt cellStateIn (torusNeighbors (gridOf GRID_SIZE) a b) in
        ∃ alive,
          load cellStateIn (torusIndex (gridOf GRID_SIZE) a b) = Some alive
          ∧ load out (torusIndex (gridOf GRID_SIZE) a b)
            = Some (if decide (live = 3 ∨ (live = 2 ∧ alive = 1))
                    then 1 else 0).
Proof.
  intros Hsize Hwg Hin Hout Hsched Hbin.
  destruct (dividingSize_grid GRID_SIZE Hsize)
    as (EW & EH & HW & HH & Hfit & HdW & HdH).
  assert (functionalSize GRID_SIZE WORKGROUP_SIZE) as Hfun.
  { destruct Hsize as [Hg Hdiv]. unfold functionalSize. auto. }
  exists (generation GRID_SIZE cellStateIn). split.
  { apply (dispatch_generation GRID_SIZE WORKGROUP_SIZE Hfun); try assumption.
    intros cell. unfold tickSchedule, schedule in Hsched. rewrite Hsched.
    reflexivity. }
  intros a b live.
  assert (∀ a' b', 0 <= torusIndex (gridOf GRID_SIZE) a' b'
                   < Z.of_nat (length cellStateIn)) as Hrange.
  { intros a' b'.
    pose proof (torusIndex_range (gridOf GRID_SIZE) HW HH a' b') as Hr.
    rewrite EW, EH in Hr. unfold cellCount in Hin. lia. }
  destruct (load_Some cellStateIn (torusIndex (gridOf GRID_SIZE) a b)
              (Hrange a b)) as [alive Halive].
  exists alive. split; [exact Halive |].
  rewrite (generation_at GRID_SIZE cellStateIn a b Hsize Hin).
  rewrite countAt_binary; [| exact Hbin | reflexivity |].
  - fold live. rewrite Halive. cbn [mbind option_bind]. f_equal.
    assert (binary alive) as Hb by exact (Forall_lookup_1 _ _ _ _ Hbin Halive).
    unfold specRule, binary in *. repeat case_decide; lia.
  - intros j Hj. unfold torusNeighbors in Hj.
    repeat (apply elem_of_cons in Hj as [-> | Hj]; [apply Hrange |]).
    inversion Hj.
Qed.

Lemma blinkerRow_binary r c : Forall binary (blinkerRow r c).
Proof.
  unfold blinkerRow. apply Forall_fmap, Forall_forall. intros i _.
  cbn. unfold binary. destruct (_ && _); auto.
Qed.

Lemma tick_conway_witness :
  ∃ out,
    runInvocations (gridOf 4) (blinkerRow 1 1) (tickInvocations 4 8)
      (replicate 16 0) = Some out
    ∧ ∀ a b,
        let live := liveAt (blinkerRow 1 1) (torusNeighbors (gridOf 4) a b) in
        ∃ alive,
          load (blinkerRow 1 1) (torusIndex (gridOf 4) a b) = Some alive
          ∧ load out (torusIndex (gridOf 4) a b)
            = Some (if decide (live = 3 ∨ (live = 2 ∧ alive = 1))
                    then 1 else 0).
Proof.
  apply (tick_conway 4 8).
  - exact dividingSize_4.
  - reflexivity.
  - reflexivity.
  - reflexivity.
  - apply tickInvocations_schedule.
  - apply blinkerRow_binary.
Defined.

(** * Grids of one value *)

Lemma cellActive_replicate grid (n : nat) c a b :
  0 < U32.of_f32 (fx grid) → 0 < U32.of_f32 (fy grid) →
  U32.of_f32 (fx grid) * U32.of_f32 (fy grid) <= Z.of_nat n →
  cellActive grid (replicate n c) a b = Some c.
Proof.
  intros HW HH Hn. unfold cellActive, load. apply lookup_replicate_2.
  pose proof (cellIndex_range grid HW HH (vec2 a b)). lia.
Qed.

Lemma specRule_replicate c u :
  binary c →
  specRule (U32.add (U32.add (U32.add (U32.add (U32.add (U32.add (U32.add
              c c) c) c) c) c) c) c) u = 0.
Proof. intros [-> | ->]; vm_compute; reflexivity. Qed.

(** On a buffer that holds [c] everywhere, with [c] 0 or 1, every
    invocation writes 0: its count is 0 or 8. *)
Lemma written_replicate grid (n : nat) c cell i v :
  0 < U32.of_f32 (fx grid) → 0 < U32.of_f32 (fy grid) →
  U32.of_f32 (fx grid) * U32.of_f32 (fy grid) <= Z.of_nat n →
  binary c →
  written grid (replicate n c) cell = Some (i, v) → v = 0.
Proof.
  intros HW HH Hn Hc. unfold written, activeNeighbors. cbn zeta.
  rewrite !cellActive_replicate by assumption.
  cbn [mbind option_bind].
  destruct (load (replicate n c) (cellIndex grid (xy cell))) as [u |];
    [| discriminate].
  cbn [mbind option_bind]. rewrite specRule_replicate by exact Hc.
  intros Heq. injection Heq as _ Hv. congruence.
Qed.

(** What every invocation writes holds of every cell after the compute pass
    of a tick, on a side of at most 65536. *)
Lemma dispatch_values (P : Z → Prop) GRID_SIZE WORKGROUP_SIZE sched
    cellStateIn cellStateOut :
  0 < WORKGROUP_SIZE → 0 < GRID_SIZE <= 65536 →
  length cellStateIn = cellCount GRID_SIZE →
  length cellStateOut = cellCount GRID_SIZE →
  tickSchedule GRID_SIZE WORKGROUP_SIZE sched →
  (∀ cell i v, written (gridOf GRID_SIZE) cellStateIn cell = Some (i, v) → P v) →
  ∃ out,
    runInvocations (gridOf GRID_SIZE) cellStateIn sched cellStateOut = Some out
    ∧ length out = cellCount GRID_SIZE
    ∧ Forall P out.
Proof.
  intros Hwg Hg Hin Hout Hsched HP.
  destruct (grid_dims GRID_SIZE ltac:(lia)) as (HW & HH & Hsize & _).
  assert (U32.of_f32 (fx (gridOf GRID_SIZE)) = GRID_SIZE) as EW.
  { unfold gridOf. cbn [fx]. rewrite grid_side by lia. unfold U32.modulus. lia. }
  assert (U32.of_f32 (fy (gridOf GRID_SIZE)) = GRID_SIZE) as EH.
  { unfold gridOf. cbn [fy]. rewrite grid_side by lia. unfold U32.modulus. lia. }
  assert (∀ l cout,
            (∀ c, c ∈ l → c ∈ sched) → length cout = cellCount GRID_SIZE →
            ∃ out, runInvocations (gridOf GRID_SIZE) cellStateIn l cout = Some out
                   ∧ length out = cellCount GRID_SIZE
                   ∧ ∀ (j : nat) v, out !! j = Some v →
                       P v ∨ (cout !! j = Some v
                              ∧ ∀ c, c ∈ l →
                                  Z.to_nat (cellIndex (gridOf GRID_SIZE) (xy c)) ≠ j))
    as Hrun.
  { induction l as [ | cell rest IH]; intros cout Hsub Hlen.
    - exists cout. split; [reflexivity |]. split; [exact Hlen |].
      intros j v Hv. right. split; [exact Hv |]. intros c Hc. inversion Hc.
    - destruct (computeMain_insert (gridOf GRID_SIZE) cellStateIn HW HH
                  ltac:(lia) cout cell ltac:(lia)) as (i & u & Hw & Hi & Hc).
      cbn [runInvocations]. rewrite Hc. cbn [mbind option_bind].
      destruct (IH (<[Z.to_nat i := u]> cout)) as (out & Hr & Hl & Hj).
      { intros c Hin'. apply Hsub. right. exact Hin'. }
      { rewrite length_insert. exact Hlen. }
      exists out. split; [exact Hr |]. split; [exact Hl |].
      intros j v Hv.
      destruct (Hj j v Hv) as [Hb | [Hsame Hothers]]; [left; exact Hb |].
      destruct (decide (Z.to_nat i = j)) as [<- | Hne].
      + left. rewrite list_lookup_insert_eq in Hsame
          by (rewrite Hlen; unfold cellCount; rewrite EW, EH in Hi; lia).
        injection Hsame as <-. exact (HP cell i u Hw).
      + right. rewrite list_lookup_insert_ne in Hsame by exact Hne.
        split; [exact Hsame |].
        intros c Hin'. apply elem_of_cons in Hin' as [-> | Hin']; [| auto].
        destruct (written_Some (gridOf GRID_SIZE) cellStateIn HW HH
                    ltac:(lia) cell) as (n & u' & _ & _ & Hw').
        rewrite Hw' in Hw. injection Hw as Hi' _. rewrite Hi'. exact Hne. }
  destruct (Hrun sched cellStateOut ltac:(auto) Hout) as (out & Hr & Hl & Hj).
  exists out. split; [exact Hr |]. split; [exact Hl |].
  apply Forall_lookup_2. intros j v Hv.
  destruct (Hj j v Hv) as [Hb | [_ Hnone]]; [exact Hb | exfalso].
  assert (Z.of_nat j < GRID_SIZE * GRID_SIZE) as Hlt.
  { apply lookup_lt_Some in Hv. unfold cellCount in Hl. lia. }
  apply (Hnone (owner (gridOf GRID_SIZE) j)).
  - unfold tickSchedule, schedule in Hsched. rewrite Hsched.
    apply elem_of_invocationIds. unfold owner. cbn [xy x y z]. rewrite EW.
    pose proof (ceilDiv_cover GRID_SIZE WORKGROUP_SIZE Hwg).
    pose proof (Z.mod_pos_bound (Z.of_nat j) GRID_SIZE ltac:(lia)).
    assert (0 <= Z.of_nat j / GRID_SIZE < GRID_SIZE).
    { split; [apply Z.div_pos; lia |]. apply Z.div_lt_upper_bound; lia. }
    lia.
  - rewrite (cellIndex_owner (gridOf GRID_SIZE) HW HH); rewrite ?EW, ?EH;
      unfold U32.modulus; nia.
Qed.

(** X5. A grid without live cells stays so: from an input buffer of 0s the
    compute pass of a tick leaves the output buffer all 0, on every side of
    at most 65536 (a power of two or not), in every order of the
    invocations and whatever the output buffer held. *)
Theorem dead_grid_stays_dead GRID_SIZE WORKGROUP_SIZE sched cellStateOut :
  0 < WORKGROUP_SIZE → 0 < GRID_SIZE <= 65536 →
  length cellStateOut = cellCount GRID_SIZE →
  tickSchedule GRID_SIZE WORKGROUP_SIZE sched →
  runInvocations (gridOf GRID_SIZE) (replicate (cellCount GRID_SIZE) 0)
    sched cellStateOut
  = Some (replicate (cellCount GRID_SIZE) 0).
Proof.
  intros Hwg Hg Hout Hsched.
  destruct (grid_dims GRID_SIZE ltac:(lia)) as (HW & HH & Hsize & _).
  destruct (dispatch_values (λ v, 0 = v) GRID_SIZE WORKGROUP_SIZE sched
              (replicate (cellCount GRID_SIZE) 0) cellStateOut Hwg Hg)
    as (out & Hr & Hl & Hall); try assumption.
  - apply length_replicate.
  - intros cell i v Hw. symmetry.
    apply (written_replicate (gridOf GRID_SIZE) (cellCount GRID_SIZE) 0 cell i v);
      try assumption. left. reflexivity.
  - rewrite Hr. f_equal. symmetry. apply replicate_as_Forall. auto.
Qed.

Lemma dead_grid_stays_dead_witness :
  runInvocations (gridOf 3) (replicate (cellCount 3) 0)
    (reverse (tickInvocations 3 8)) [7; 7; 7; 7; 7; 7; 7; 7; 7]
  = Some (replicate (cellCount 3) 0).
Proof.
  apply (dead_grid_stays_dead 3 8).
  - reflexivity.
  - split; [reflexivity | discriminate].
  - reflexivity.
  - apply reverse_schedule.
Defined.

(** X6. A grid of live cells only dies at once: from an input buffer of 1s
    every invocation counts 8 neighbours, also on sides 1 and 2 where a
    cell is its own neighbour, and the compute pass leaves the output
    buffer all 0, on every side of at most 65536 and in every order. *)
Theorem full_grid_dies GRID_SIZE WORKGROUP_SIZE sched cellStateOut :
  0 < WORKGROUP_SIZE → 0 < GRID_SIZE <= 65536 →
  length cellStateOut = cellCount GRID_SIZE →
  tickSchedule GRID_SIZE WORKGROUP_SIZE sched →
  runInvocations (gridOf GRID_SIZE) (replicate (cellCount GRID_SIZE) 1)
    sched cellStateOut
  = Some (replicate (cellCount GRID_SIZE) 0).
Proof.
  intros Hwg Hg Hout Hsched.
  destruct (grid_dims GRID_SIZE ltac:(lia)) as (HW & HH & Hsize & _).
  destruct (dispatch_values (λ v, 0 = v) GRID_SIZE WORKGROUP_SIZE sched
              (replicate (cellCount GRID_SIZE) 1) cellStateOut Hwg Hg)
    as (out & Hr & Hl & Hall); try assumption.
  - apply length_replicate.
  - intros cell i v Hw. symmetry.
    apply (written_replicate (gridOf GRID_SIZE) (cellCount GRID_SIZE) 1 cell i v);
      try assumption. right. reflexivity.
  - rewrite Hr. f_equal. symmetry. apply replicate_as_Forall. auto.
Qed.

Lemma full_grid_dies_witness :
  runInvocations (gridOf 1) (replicate (cellCount 1) 1)
    (tickInvocations 1 8) [1]
  = Some (replicate (cellCount 1) 0).
Proof.
  apply (full_grid_dies 1 8).
  - reflexivity.
  - split; [reflexivity | discriminate].
  - reflexivity.
  - apply tickInvocations_schedule.
Defined.

(** * Runs of several ticks *)

Lemma ticks_ticksFrames GRID_SIZE WORKGROUP_SIZE scheds : ∀ m,
  ticks GRID_SIZE WORKGROUP_SIZE scheds m
  = fst <$> ticksFrames GRID_SIZE WORKGROUP_SIZE scheds m.
Proof.
  induction scheds as [ | sched rest IH]; intros m; [reflexivity |].
  cbn [ticks ticksFrames].
  destruct (tick GRID_SIZE WORKGROUP_SIZE sched m) as [[m1 shown] |];
    [| reflexivity].
  cbn [mbind option_bind]. rewrite IH.
  destruct (ticksFrames GRID_SIZE WORKGROUP_SIZE rest m1) as [[m2 later] |];
    reflexivity.
Qed.

Lemma length_generationN GRID_SIZE WORKGROUP_SIZE k cells :
  functionalSize GRID_SIZE WORKGROUP_SIZE →
  length cells = cellCount GRID_SIZE →
  length (generationN GRID_SIZE k cells) = cellCount GRID_SIZE.
Proof.
  intros Hsize Hl. destruct k as [ | k]; [exact Hl |].
  unfold generationN. cbn [Nat.iter].
  apply (length_generation GRID_SIZE WORKGROUP_SIZE Hsize).
Qed.

Lemma tick_machineAt GRID_SIZE WORKGROUP_SIZE sched step current other :
  functionalSize GRID_SIZE WORKGROUP_SIZE →
  tickSchedule GRID_SIZE WORKGROUP_SIZE sched →
  0 <= step →
  length current = cellCount GRID_SIZE → length other = cellCount GRID_SIZE →
  tick GRID_SIZE WORKGROUP_SIZE sched (machineAt GRID_SIZE step current other)
  = Some (machineAt GRID_SIZE (step + 1) (generation GRID_SIZE current) current,
          [generation GRID_SIZE current]).
Proof.
  intros Hsize Hsched Hstep Hc Ho. unfold machineAt.
  rewrite Z.add_1_r, Z.even_succ, <- Z.negb_even, <- Z.add_1_r.
  destruct (Z.even step) eqn:Ev; cbn [negb].
  - rewrite (tick_generation GRID_SIZE WORKGROUP_SIZE Hsize sched step
               current other Hsched Hstep Hc Ho), Ev. reflexivity.
  - rewrite (tick_generation GRID_SIZE WORKGROUP_SIZE Hsize sched step
               other current Hsched Hstep Ho Hc), Ev. reflexivity.
Qed.

Lemma ticksFrames_machineAt GRID_SIZE WORKGROUP_SIZE scheds :
  functionalSize GRID_SIZE WORKGROUP_SIZE →
  Forall (tickSchedule GRID_SIZE WORKGROUP_SIZE) scheds →
  ∀ step current other,
    0 <= step →
    length current = cellCount GRID_SIZE → length other = cellCount GRID_SIZE →
    ticksFrames GRID_SIZE WORKGROUP_SIZE scheds
      (machineAt GRID_SIZE step current other)
    = Some (machineAt GRID_SIZE (step + Z.of_nat (length scheds))
              (generationN GRID_SIZE (length scheds) current)
              (previousGeneration GRID_SIZE (length scheds) current other),
            (λ k, generationN GRID_SIZE k current) <$> seq 1 (length scheds)).
Proof.
  intros Hsize Hs.
  induction Hs as [ | sched rest Hsched Hrest IH]; intros step c o Hstep Hc Ho.
  - cbn. rewrite Z.add_0_r. reflexivity.
  - cbn [ticksFrames].
    rewrite (tick_machineAt GRID_SIZE WORKGROUP_SIZE sched step c o)
      by assumption.
    cbn [mbind option_bind].
    rewrite IH; [| lia | apply (length_generation _ _ Hsize) | exact Hc].
    cbn [mbind option_bind length app]. f_equal. f_equal.
    + unfold machineAt.
      replace (step + 1 + Z.of_nat (length rest))
        with (step + Z.of_nat (S (length rest))) by lia.
      assert (generationN GRID_SIZE (length rest) (generation GRID_SIZE c)
              = generationN GRID_SIZE (S (length rest)) c) as ->.
      { unfold generationN. rewrite Nat.iter_succ_r. reflexivity. }
      assert (previousGeneration GRID_SIZE (length rest)
                (generation GRID_SIZE c) c
              = previousGeneration GRID_SIZE (S (length rest)) c o) as ->.
      { unfold previousGeneration, generationN.
        destruct (length rest); [reflexivity |].
        rewrite Nat.iter_succ_r. reflexivity. }
      reflexivity.
    + cbn [seq fmap list_fmap]. f_equal.
      rewrite <- (fmap_S_seq 1 (length rest)), <- list_fmap_compose.
      apply list_fmap_ext. intros _ k _.
      unfold compose, generationN. symmetry. apply Nat.iter_succ_r.
Qed.

(** X7. On a side of at most 65536 that divides 2^32 or is a multiple of
    the workgroup size, after N ticks from step 0 the buffer that is then
    current (A for even N, B for odd N) holds the N-th generation of the
    initial buffer A and the other one holds generation N-1; what buffer B
    held at the start is gone after the first tick. *)
Theorem ticks_generationN GRID_SIZE WORKGROUP_SIZE scheds a b :
  functionalSize GRID_SIZE WORKGROUP_SIZE →
  Forall (tickSchedule GRID_SIZE WORKGROUP_SIZE) scheds →
  length a = cellCount GRID_SIZE → length b = cellCount GRID_SIZE →
  ticks GRID_SIZE WORKGROUP_SIZE scheds (0, deviceOf GRID_SIZE a b)
  = Some (machineAt GRID_SIZE (Z.of_nat (length scheds))
            (generationN GRID_SIZE (length scheds) a)
            (previousGeneration GRID_SIZE (length scheds) a b)).
Proof.
  intros Hsize Hs Ha Hb.
  rewrite ticks_ticksFrames.
  change (0, deviceOf GRID_SIZE a b) with (machineAt GRID_SIZE 0 a b).
  rewrite (ticksFrames_machineAt GRID_SIZE WORKGROUP_SIZE scheds Hsize Hs)
    by (assumption || lia).
  reflexivity.
Qed.

Lemma ticks_generationN_witness :
  ticks 4 8 [tickInvocations 4 8; reverse (tickInvocations 4 8);
             tickInvocations 4 8]
    (0, deviceOf 4 (blinkerRow 1 1) (replicate 16 7))
  = Some (3, deviceOf 4 (generationN 4 2 (blinkerRow 1 1))
               (generationN 4 3 (blinkerRow 1 1))).
Proof.
  apply (ticks_generationN 4 8
           [tickInvocations 4 8; reverse (tickInvocations 4 8);
            tickInvocations 4 8]).
  - exact functionalSize_4_8.
  - constructor; [apply tickInvocations_schedule |].
    constructor; [apply reverse_schedule |].
    constructor; [apply tickInvocations_schedule | constructor].
  - reflexivity.
  - reflexivity.
Defined.

(** X8. On such a side the frames that N ticks show are the generations 1
    to N of the initial buffer A, in this order: every frame is the
    generation just computed, none is shown twice or skipped. *)
Theorem frames_are_generations GRID_SIZE WORKGROUP_SIZE scheds a b :
  functionalSize GRID_SIZE WORKGROUP_SIZE →
  Forall (tickSchedule GRID_SIZE WORKGROUP_SIZE) scheds →
  length a = cellCount GRID_SIZE → length b = cellCount GRID_SIZE →
  snd <$> ticksFrames GRID_SIZE WORKGROUP_SIZE scheds
            (0, deviceOf GRID_SIZE a b)
  = Some ((λ k, generationN GRID_SIZE k a) <$> seq 1 (length scheds)).
Proof.
  intros Hsize Hs Ha Hb.
  change (0, deviceOf GRID_SIZE a b) with (machineAt GRID_SIZE 0 a b).
  rewrite (ticksFrames_machineAt GRID_SIZE WORKGROUP_SIZE scheds Hsize Hs)
    by (assumption || lia).
  reflexivity.
Qed.

Lemma frames_are_generations_witness :
  snd <$> ticksFrames 4 8 [tickInvocations 4 8; reverse (tickInvocations 4 8)]
            (0, deviceOf 4 (blinkerRow 1 1) (replicate 16 7))
  = Some [generationN 4 1 (blinkerRow 1 1); generationN 4 2 (blinkerRow 1 1)].
Proof.
  apply (frames_are_generations 4 8
           [tickInvocations 4 8; reverse (tickInvocations 4 8)]).
  - exact functionalSize_4_8.
  - constructor; [apply tickInvocations_schedule |].
    constructor; [apply reverse_schedule | constructor].
  - reflexivity.
  - reflexivity.
Defined.

(** * Moving a pattern over the torus *)

(** X9. On a side that divides 2^32 the simulation is the same everywhere
    on the torus, the edges included: if one input buffer is another one
    moved by [dx] columns and [dy] rows, wrapping around, then its next
    generation is the other's next generation moved in the same way. *)
Theorem generation_translation GRID_SIZE dx dy cellStateIn cellStateIn' :
  dividingSize GRID_SIZE →
  length cellStateIn = cellCount GRID_SIZE →
  length cellStateIn' = cellCount GRID_SIZE →
  translated (gridOf GRID_SIZE) dx dy cellStateIn cellStateIn' →
  translated (gridOf GRID_SIZE) dx dy
    (generation GRID_SIZE cellStateIn) (generation GRID_SIZE cellStateIn').
Proof.
  intros Hsize Hin Hin' Hmoved a b.
  rewrite !generation_at by assumption.
  rewrite (Hmoved a b).
  assert (countAt cellStateIn'
            (torusNeighbors (gridOf GRID_SIZE) (a + dx) (b + dy))
          = countAt cellStateIn (torusNeighbors (gridOf GRID_SIZE) a b)) as ->;
    [| reflexivity].
  unfold countAt, torusNeighbors. cbn [mapM].
  replace (a + dx + 1) with (a + 1 + dx) by lia.
  replace (a + dx - 1) with (a - 1 + dx) by lia.
  replace (b + dy + 1) with (b + 1 + dy) by lia.
  replace (b + dy - 1) with (b - 1 + dy) by lia.
  rewrite !Hmoved. reflexivity.
Qed.

Lemma blinkerRow_translated :
  translated (gridOf 4) 1 0 (blinkerRow 1 1) (blinkerRow 1 2).
Proof.
  intros a b. unfold torusIndex.
  change (U32.of_f32 (fx (gridOf 4))) with 4.
  change (U32.of_f32 (fy (gridOf 4))) with 4.
  rewrite Z.add_0_r, <- (Z.add_mod_idemp_l a 1 4) by discriminate.
  pose proof (Z.mod_pos_bound a 4 ltac:(reflexivity)) as Ha.
  pose proof (Z.mod_pos_bound b 4 ltac:(reflexivity)) as Hb.
  generalize dependent (a mod 4). generalize dependent (b mod 4).
  intros rb Hb ra Ha.
  assert (ra = 0 ∨ ra = 1 ∨ ra = 2 ∨ ra = 3) as Ha' by lia.
  assert (rb = 0 ∨ rb = 1 ∨ rb = 2 ∨ rb = 3) as Hb' by lia.
  destruct Ha' as [-> | [-> | [-> | ->]]];
    destruct Hb' as [-> | [-> | [-> | ->]]]; reflexivity.
Qed.

Lemma generation_translation_witness :
  translated (gridOf 4) 1 0
    (generation 4 (blinkerRow 1 1)) (generation 4 (blinkerRow 1 2)).
Proof.
  apply (generation_translation 4 1 0).
  - exact dividingSize_4.
  - reflexivity.
  - reflexivity.
  - exact blinkerRow_translated.
Defined.

(** * The grid that the shaders see *)



(** * The cell shader *)









Lemma F32_mul_zero p : F32.mul p (F32.of_u32 0) = 0%Q.
Proof.
  change (F32.of_u32 0) with 0%Q. unfold F32.mul, F32.round.
  cbn [Qmult Qnum Qden]. rewrite Z.mul_0_r. reflexivity.
Qed.

(** X12. A dead cell is not drawn: when the state of its instance is 0, all
    the vertices of the instance, whatever their positions in the vertex
    buffer, go to the same point, and the two triangles have no area. *)
Theorem dead_cell_collapses grid cellState instance p p' :
  load cellState instance = Some 0 →
  ∃ out out',
    vertexMain grid cellState (VertexInput.make p instance) = Some out
    ∧ vertexMain grid cellState (VertexInput.make p' instance) = Some out'
    ∧ (px (VertexOutput.pos out) == px (VertexOutput.pos out'))%Q
    ∧ (py (VertexOutput.pos out) == py (VertexOutput.pos out'))%Q
    ∧ pz (VertexOutput.pos out) = pz (VertexOutput.pos out')
    ∧ pw (VertexOutput.pos out) = pw (VertexOutput.pos out').
Proof.
  intros Hdead. unfold vertexMain. cbn [VertexInput.instance VertexInput.pos].
  rewrite Hdead. cbn [mbind option_bind].
  eexists _, _. split; [reflexivity |]. split; [reflexivity |].
  cbn [VertexOutput.pos px py pz pw fx fy].
  rewrite !F32_mul_zero. repeat split; reflexivity.
Qed.

Lemma dead_cell_collapses_witness :
  ∃ out out',
    vertexMain (gridOf 4) (blinkerRow 1 1)
      (VertexInput.make (Vec2f (-8#10) (-8#10)) 0) = Some out
    ∧ vertexMain (gridOf 4) (blinkerRow 1 1)
        (VertexInput.make (Vec2f (8#10) (8#10)) 0) = Some out'
    ∧ (px (VertexOutput.pos out) == px (VertexOutput.pos out'))%Q
    ∧ (py (VertexOutput.pos out) == py (VertexOutput.pos out'))%Q.
Proof.
  destruct (dead_cell_collapses (gridOf 4) (blinkerRow 1 1) 0
              (Vec2f (-8#10) (-8#10)) (Vec2f (8#10) (8#10)))
    as (out & out' & H1 & H2 & Hx & Hy & _).
  - reflexivity.
  - exists out, out'. auto.
Defined.





(** * Invocations beyond the edge of the grid *)

(** X15. The kernel has no bounds check; on a side that divides 2^32 it
    needs none: an invocation whose id lies beyond the edge of the grid
    writes the same value at the same index as the invocation of the cell
    that its id wraps to, so that the surplus ids of the last workgroups
    change nothing. *)
Theorem overdispatch_harmless GRID_SIZE cellStateIn cellStateOut cell :
  dividingSize GRID_SIZE →
  length cellStateIn = cellCount GRID_SIZE →
  length cellStateOut = cellCount GRID_SIZE →
  let inside :=
    Vec3u (vec2 (x (xy cell) mod GRID_SIZE) (y (xy cell) mod GRID_SIZE)) 0 in
  written (gridOf GRID_SIZE) cellStateIn cell
  = written (gridOf GRID_SIZE) cellStateIn inside
  ∧ computeMain (gridOf GRID_SIZE) cellStateIn cellStateOut cell
    = computeMain (gridOf GRID_SIZE) cellStateIn cellStateOut inside
  ∧ is_Some (computeMain (gridOf GRID_SIZE) cellStateIn cellStateOut cell).
Proof.
  intros Hsize Hin Hout inside.
  destruct (dividingSize_grid GRID_SIZE Hsize)
    as (EW & EH & HW & HH & Hfit & HdW & HdH).
  assert (U32.of_f32 (fx (gridOf GRID_SIZE)) * U32.of_f32 (fy (gridOf GRID_SIZE))
          <= Z.of_nat (length cellStateIn)) as Hsz.
  { rewrite EW, EH. unfold cellCount in Hin. lia. }
  assert (written (gridOf GRID_SIZE) cellStateIn cell
          = written (gridOf GRID_SIZE) cellStateIn inside) as Hsame.
  { pose proof (agrees_divisors (gridOf GRID_SIZE) cellStateIn HW HH Hfit cell
                  HdW HdH) as Hag.
    unfold agrees in Hag. rewrite Hag. f_equal.
    destruct (owner_coordinates (gridOf GRID_SIZE) HW HH Hfit cell) as [Hx Hy].
    cbn zeta in Hx, Hy. rewrite EW in Hx. rewrite EH in Hy.
    unfold inside. rewrite <- Hx, <- Hy.
    destruct (owner (gridOf GRID_SIZE)
                (Z.to_nat (cellIndex (gridOf GRID_SIZE) (xy cell))))
      as [[a b] c] eqn:E.
    assert (c = 0) as ->.
    { apply (f_equal z) in E. cbn in E. congruence. }
    reflexivity. }
  destruct (written_Some (gridOf GRID_SIZE) cellStateIn HW HH Hsz cell)
    as (n & v & _ & _ & Hw).
  pose proof (cellIndex_range (gridOf GRID_SIZE) HW HH (xy cell)) as Hi.
  split; [exact Hsame |].
  rewrite (computeMain_written (gridOf GRID_SIZE) cellStateIn HW HH Hsz
             cellStateOut cell _ _ Hw).
  rewrite Hsame in Hw.
  rewrite (computeMain_written (gridOf GRID_SIZE) cellStateIn HW HH Hsz
             cellStateOut inside _ _ Hw).
  split; [reflexivity |].
  rewrite store_Some; [eauto |].
  rewrite EW, EH in Hi. unfold cellCount in Hout. lia.
Qed.

Lemma overdispatch_harmless_witness :
  written (gridOf 4) (blinkerRow 1 1) (Vec3u (vec2 5 7) 0)
  = written (gridOf 4) (blinkerRow 1 1) (Vec3u (vec2 (5 mod 4) (7 mod 4)) 0)
  ∧ computeMain (gridOf 4) (blinkerRow 1 1) (replicate 16 0) (Vec3u (vec2 5 7) 0)
    = computeMain (gridOf 4) (blinkerRow 1 1) (replicate 16 0)
        (Vec3u (vec2 (5 mod 4) (7 mod 4)) 0)
  ∧ is_Some (computeMain (gridOf 4) (blinkerRow 1 1) (replicate 16 0)
               (Vec3u (vec2 5 7) 0)).
Proof.
  apply (overdispatch_harmless 4 (blinkerRow 1 1) (replicate 16 0)
           (Vec3u (vec2 5 7) 0)).
  - exact dividingSize_4.
  - reflexivity.
  - reflexivity.
Defined.

(** * What is shown *)

Lemma ticksFrames_binary GRID_SIZE WORKGROUP_SIZE scheds : ∀ step a b,
  0 < GRID_SIZE → 0 <= step →
  length a = cellCount GRID_SIZE → length b = cellCount GRID_SIZE →
  Forall binary a → Forall binary b →
  ∃ m frames,
    ticksFrames GRID_SIZE WORKGROUP_SIZE scheds (step, deviceOf GRID_SIZE a b)
    = Some (m, frames)
    ∧ length frames = length scheds
    ∧ Forall (λ frame, length frame = cellCount GRID_SIZE
                       ∧ Forall binary frame) frames.
Proof.
  induction scheds as [ | sched rest IH]; intros step a b Hg Hs Ha Hb Hba Hbb.
  - eexists _, _. split; [reflexivity |]. split; [reflexivity | constructor].
  - destruct (tick_binary GRID_SIZE WORKGROUP_SIZE sched step a b
                Hg Hs Ha Hb Hba Hbb)
      as (a1 & b1 & shown & Ht & Ha1 & Hb1 & Hba1 & Hbb1).
    destruct (tick_run GRID_SIZE WORKGROUP_SIZE Hg sched step a b Hs Ha Hb)
      as (out & _ & Hl & Ht').
    rewrite Ht in Ht'. injection Ht' as Hdev Hshown.
    assert (Forall binary out) as Hbo.
    { destruct (Z.even step); injection Hdev as -> ->; assumption. }
    destruct (IH (step + 1) a1 b1) as (m & later & Hr & Hlen & Hall);
      try assumption; try lia.
    exists m, (shown ++ later). cbn [ticksFrames]. rewrite Ht.
    cbn [mbind option_bind]. rewrite Hr. cbn [mbind option_bind].
    split; [reflexivity |]. subst shown. cbn [app length].
    split; [congruence |]. constructor; [split; assumption | exact Hall].
Qed.

(** X16. From the setup on, on a device with the default limits of WebGPU
    (at most 256 invocations in a workgroup, so WORKGROUP_SIZE^2 <= 256,
    and at most 134217728 bytes in a storage binding, so
    4 * GRID_SIZE^2 <= 134217728), and in every order of the invocations, N
    ticks never fail and show N frames, each with one state per cell and
    every state 0 or 1. *)
Theorem frames_binary GRID_SIZE WORKGROUP_SIZE random scheds :
  0 < WORKGROUP_SIZE → WORKGROUP_SIZE * WORKGROUP_SIZE <= 256 →
  0 < GRID_SIZE → 4 * (GRID_SIZE * GRID_SIZE) <= 134217728 →
  ∃ m frames,
    initMachine GRID_SIZE random
      ≫= ticksFrames GRID_SIZE WORKGROUP_SIZE scheds = Some (m, frames)
    ∧ length frames = length scheds
    ∧ Forall (λ frame, length frame = cellCount GRID_SIZE
                       ∧ Forall binary frame) frames.
Proof.
  intros _ _ Hg _. rewrite initMachine_eq. cbn [mbind option_bind].
  apply ticksFrames_binary; try assumption; try lia.
  - apply length_cellStateArray.
  - apply length_replicate.
  - apply cellStateArray_binary.
  - apply Forall_replicate. left. reflexivity.
Qed.

Lemma frames_binary_witness :
  ∃ m frames,
    initMachine 3 (λ i, inject_Z (Z.of_nat i) / 5)%Q
      ≫= ticksFrames 3 8 [tickInvocations 3 8; reverse (tickInvocations 3 8)]
    = Some (m, frames)
    ∧ length frames = 2%nat
    ∧ Forall (λ frame, length frame = cellCount 3 ∧ Forall binary frame) frames.
Proof.
  apply (frames_binary 3 8 (λ i, inject_Z (Z.of_nat i) / 5)%Q
           [tickInvocations 3 8; reverse (tickInvocations 3 8)]); lia.
Defined.
